(** * Verification of generate-epg.py (Jellyfin IPTV EPG generator)

    A shallow embedding of the playlist parser, the catalog scanner, the
    match pass, the two freshness checks and the run of [main], together
    with the properties of the specification that were checked against it.

    Python strings are sequences of Unicode code points: a character is a
    code point in [N] and a [str] is a list of them.  Clock readings
    ([time.time()], [st_mtime]) are modelled as exact rationals. *)

From Stdlib Require Import Ascii String.
From Stdlib Require Import List NArith ZArith QArith Bool Lia Lqa.
Import ListNotations.
Close Scope Q_scope.

(* ================================================================== *)
(** ** Python string primitives used by the program *)

Module Py.

Definition char := N.
Definition str := list char.

(** An ASCII literal as a [str]. *)
Definition lit (s : string) : str := map N_of_ascii (list_ascii_of_string s).
Arguments lit s%_string.

Definition LF : char := 10%N.
Definition DQUOTE : char := 34%N.
Definition SQUOTE : char := 39%N.

(** [a == b] on strings. *)
Fixpoint str_eqb (a b : str) : bool :=
  match a, b with
  | [], [] => true
  | x :: a', y :: b' => (x =? y)%N && str_eqb a' b'
  | _, _ => false
  end.

(** [str.isspace] on one character, the set used by [str.strip()] and by
    [\s] in [re] patterns on [str]. *)
Definition isspace (c : char) : bool :=
  ((9 <=? c) && (c <=? 13) || (28 <=? c) && (c <=? 32)
   || (c =? 133) || (c =? 160) || (c =? 5760)
   || (8192 <=? c) && (c <=? 8202)
   || (c =? 8232) || (c =? 8233) || (c =? 8239) || (c =? 8287)
   || (c =? 12288))%N.

Fixpoint lstrip (s : str) : str :=
  match s with
  | [] => []
  | c :: s' => if isspace c then lstrip s' else s
  end.

Definition rstrip (s : str) : str := rev (lstrip (rev s)).

(** [s.strip()] *)
Definition strip (s : str) : str := rstrip (lstrip s).

(** [s.startswith(p)] *)
Fixpoint startswith (s p : str) : bool :=
  match p, s with
  | [], _ => true
  | _ :: _, [] => false
  | a :: p', b :: s' => (a =? b)%N && startswith s' p'
  end.

(** [s.split('\n')]: never empty, one more piece than separators. *)
Fixpoint split_nl (s : str) : list str :=
  match s with
  | [] => [[]]
  | c :: s' =>
      if (c =? LF)%N then [] :: split_nl s'
      else match split_nl s' with
           | [] => [[c]]
           | l :: ls => (c :: l) :: ls
           end
  end.

(** ['\n'.join(ls)] *)
Fixpoint join_nl (ls : list str) : str :=
  match ls with
  | [] => []
  | [l] => l
  | l :: ls' => l ++ LF :: join_nl ls'
  end.

(** Truthiness of a string: [not s] holds exactly for the empty string. *)
Definition truthy (s : str) : bool :=
  match s with [] => false | _ :: _ => true end.

End Py.
Import Py.

(* ================================================================== *)
(** ** The playlist parser: [parse_m3u] *)

Definition EXTINF : str := lit "#EXTINF:".
Definition HASH : str := lit "#".
Definition TVG_ID_OPEN : str := lit "tvg-id=" ++ [DQUOTE].

(** The greedy negated class of the pattern: the longest prefix free of
    double quotes, and what follows it. *)
Fixpoint span_unquoted (s : str) : str * str :=
  match s with
  | [] => ([], [])
  | c :: s' =>
      if (c =? DQUOTE)%N then ([], s)
      else let '(v, r) := span_unquoted s' in (c :: v, r)
  end.

Fixpoint drop_prefix (p s : str) : option str :=
  match p, s with
  | [], _ => Some s
  | _ :: _, [] => None
  | a :: p', b :: s' => if (a =? b)%N then drop_prefix p' s' else None
  end.

(** The tvg-id pattern of source line 76 anchored at the start of [s]: the
    opening text, a greedy run of one or more characters other than the
    double quote, and a closing double quote. *)
Definition tvg_id_here (s : str) : option str :=
  match drop_prefix TVG_ID_OPEN s with
  | None => None
  | Some r =>
      match span_unquoted r with
      | ((_ :: _) as v, q :: _) => Some v
      | _ => None
      end
  end.

(** [re.search] with that pattern: group 1 of the leftmost match. *)
Fixpoint search_tvg_id (s : str) : option str :=
  match tvg_id_here s with
  | Some v => Some v
  | None => match s with
            | [] => None
            | _ :: s' => search_tvg_id s'
            end
  end.

(** One channel entry: the dict built by [parse_m3u]. *)
Record Channel := mkChannel {
  tvg_id : option str;
  metadata_lines : list str;
  stream_url : str;
  full_entry : str
}.

Definition is_extinf (l : str) : bool := startswith (strip l) EXTINF.

(** Guard of the auxiliary-metadata loop (source line 64). *)
Definition is_aux (l : str) : bool :=
  startswith (strip l) HASH && negb (startswith (strip l) EXTINF).

(** Guard of the blank-skipping loop (source line 69): [not lines[i].strip()]. *)
Definition is_blank (l : str) : bool := negb (truthy (strip l)).

(** [while i < len(lines) and <aux guard>: metadata_lines.append(...); i += 1].
    [fuel] bounds the rounds of the loop; one per line is enough. *)
Fixpoint meta_loop (fuel : nat) (lines : list str) (i : nat) (md : list str)
  : nat * list str :=
  match fuel with
  | O => (i, md)
  | S f =>
      match nth_error lines i with
      | Some l =>
          if is_aux l then meta_loop f lines (S i) (md ++ [strip l])
          else (i, md)
      | None => (i, md)
      end
  end.

(** [while i < len(lines) and not lines[i].strip(): i += 1] *)
Fixpoint blank_loop (fuel : nat) (lines : list str) (i : nat) : nat :=
  match fuel with
  | O => i
  | S f =>
      match nth_error lines i with
      | Some l => if is_blank l then blank_loop f lines (S i) else i
      | None => i
      end
  end.

(** The dict appended at source lines 79-84. *)
Definition make_channel (md : list str) (url : str) : Channel :=
  {| tvg_id := search_tvg_id (hd [] md);
     metadata_lines := md;
     stream_url := url;
     full_entry := join_nl md ++ LF :: url |}.

(** The outer [while i < len(lines)] loop, threading [i] and [channels]. *)
Fixpoint main_loop (fuel : nat) (lines : list str) (i : nat)
  (channels : list Channel) : list Channel :=
  match fuel with
  | O => channels
  | S f =>
      match nth_error lines i with
      | None => channels
      | Some l =>
          let line := strip l in
          if startswith line EXTINF then
            let '(i1, md) := meta_loop (length lines) lines (S i) [line] in
            let i2 := blank_loop (length lines) lines i1 in
            match nth_error lines i2 with
            | Some u =>
                main_loop f lines (S i2) (channels ++ [make_channel md (strip u)])
            | None => main_loop f lines (S i2) channels
            end
          else main_loop f lines (S i) channels
      end
  end.

(** The loop run on the list of lines; each iteration advances [i], so
    [length lines] iterations are enough (see [main_loop_fuel]). *)
Definition parse_lines (lines : list str) : list Channel :=
  main_loop (length lines) lines 0 [].

Definition parse_m3u (m3u_content : str) : list Channel :=
  parse_lines (split_nl m3u_content).

(** *** Vocabulary for statements about the parser *)

(** The longest prefix of lines satisfying a guard, and the rest: what a
    [while i < len(lines) and guard(lines[i])] loop walks over. *)
Fixpoint span_lines (g : str -> bool) (ls : list str) : list str * list str :=
  match ls with
  | [] => ([], [])
  | l :: ls' =>
      if g l then let '(a, r) := span_lines g ls' in (l :: a, r)
      else ([], ls)
  end.

(** The guard fails on the first line of [ls], if there is one. *)
Definition stops (g : str -> bool) (ls : list str) : Prop :=
  match ls with [] => True | l :: _ => g l = false end.

(** Where a parsed entry comes from: an [#EXTINF] line [p], the auxiliary
    directive lines [aux] that directly follow it, a run of blank lines
    [blanks], and the line [u] the parser takes as the stream URL. *)
Definition entry_at (lines : list str) (ch : Channel) : Prop :=
  exists pre p aux blanks u post,
    lines = pre ++ p :: aux ++ blanks ++ u :: post /\
    is_extinf p = true /\
    Forall (fun l => is_aux l = true) aux /\
    Forall (fun l => is_blank l = true) blanks /\
    is_blank u = false /\
    (blanks = [] -> is_aux u = false) /\
    ch = make_channel (strip p :: map strip aux) (strip u).

Definition is_directive (l : str) : bool := startswith (strip l) HASH.

(** *** Well-formed playlists

    A playlist is a sequence of items: complete entries (an [#EXTINF] line,
    auxiliary directive lines, optional blank lines and a URL line) and
    other lines outside any entry (header, comments, blank lines), possibly
    followed by one unfinished entry that reaches the end of input without
    a URL line. *)
Inductive item :=
| Junk (l : str)
| Entry (p : str) (aux blanks : list str) (u : str).

Record playlist := mkPlaylist {
  items : list item;
  unfinished : option (str * list str * list str)
}.

(** A URL line: not blank and not a directive. *)
Definition is_url (u : str) : bool := negb (is_blank u) && negb (is_directive u).

Definition valid_item (it : item) : bool :=
  match it with
  | Junk l => negb (is_extinf l)
  | Entry p aux blanks u =>
      is_extinf p && forallb is_aux aux && forallb is_blank blanks && is_url u
  end.

Definition valid_unfinished (o : option (str * list str * list str)) : bool :=
  match o with
  | None => true
  | Some (p, aux, blanks) =>
      is_extinf p && forallb is_aux aux && forallb is_blank blanks
  end.

Definition valid_playlist (pl : playlist) : bool :=
  forallb valid_item (items pl) && valid_unfinished (unfinished pl).

Definition item_lines (it : item) : list str :=
  match it with
  | Junk l => [l]
  | Entry p aux blanks u => p :: aux ++ blanks ++ [u]
  end.

Definition unfinished_lines (o : option (str * list str * list str)) : list str :=
  match o with
  | None => []
  | Some (p, aux, blanks) => p :: aux ++ blanks
  end.

Definition playlist_lines (pl : playlist) : list str :=
  flat_map item_lines (items pl) ++ unfinished_lines (unfinished pl).

Definition item_records (it : item) : list Channel :=
  match it with
  | Junk _ => []
  | Entry p aux _ u => [make_channel (strip p :: map strip aux) (strip u)]
  end.

Definition complete_entries (pl : playlist) : list Channel :=
  flat_map item_records (items pl).



(** *** Example playlists *)

(** Two [#EXTINF] lines in a row, then a URL. *)
Definition playlist_two_heads : str :=
  join_nl [lit "#EXTINF:-1,One"; lit "#EXTINF:-1,Two"; lit "http://two"].


(** A blank line between the metadata and the URL. *)
Definition playlist_blank_gap : str :=
  join_nl [lit "#EXTINF:-1,One"; lit ""; lit "http://one"].

(** A header, one complete entry with an option line, a stray line and an
    entry that never gets its URL. *)
Definition playlist_sample : playlist :=
  {| items := [Junk (lit "#EXTM3U");
               Entry (lit "#EXTINF:-1,One") [lit "#EXTVLCOPT:x"] [[]]
                     (lit "http://one");
               Junk (lit "stray")];
     unfinished := Some (lit "#EXTINF:-1,Two", [], [[]]) |}.

(* ================================================================== *)
(** ** Catalog documents and the path queries of [xml.etree]

    A catalog file is parsed by [ET.parse] into a tree of elements and
    queried with [root.findall(path)].  The path is built from the
    identifier by string interpolation, so what the query does on an
    arbitrary identifier is decided by the path compiler of
    [xml.etree.ElementPath]; its tokenizer and the part of its compiler the
    paths of this program can reach are modelled here (CPython 3.10 and
    later).  Path features outside that part (parent steps, wildcard
    namespaces, tag, text and index predicates) are left to a parameter
    [ext], about which nothing is assumed. *)

(** Exceptions, all of them subclasses of [Exception]. *)
Inductive exn :=
| ParseError | SyntaxError | KeyError | TypeError | ValueError | OSError
| URLError | CalledProcessError.

(** The outcome of a call that may raise. *)
Inductive result (A : Type) :=
| Return (a : A)
| Raise (e : exn).
Arguments Return {A} a.
Arguments Raise {A} e.

#[warnings="-register-all"]
Inductive element :=
| Element (tag : str) (attrib : list (str * str)) (children : list element).

Definition elem_tag (e : element) : str :=
  match e with Element t _ _ => t end.
Definition elem_attrib (e : element) : list (str * str) :=
  match e with Element _ a _ => a end.
Definition elem_children (e : element) : list element :=
  match e with Element _ _ c => c end.

(** [elem.get(key)] *)
Definition elem_get (e : element) (key : str) : option str :=
  option_map snd (find (fun kv => str_eqb (fst kv) key) (elem_attrib e)).

(** [elem.iter()]: the element, then its descendants in document order. *)
Fixpoint elem_iter (e : element) : list element :=
  match e with
  | Element _ _ cs => e :: flat_map elem_iter cs
  end.

(** The proper descendants: [e for e in elem.iter() if e is not elem]. *)
Definition descendants (e : element) : list element :=
  flat_map elem_iter (elem_children e).

Module ElementPath.

Definition COLON : char := 58%N.
Definition SLASH : char := 47%N.
Definition DOT : char := 46%N.
Definition LPAREN : char := 40%N.
Definition RPAREN : char := 41%N.
Definition BANG : char := 33%N.
Definition STAR : char := 42%N.
Definition LBRACKET : char := 91%N.
Definition RBRACKET : char := 93%N.
Definition AT : char := 64%N.
Definition EQUALS : char := 61%N.
Definition LBRACE : char := 123%N.
Definition RBRACE : char := 125%N.

(** A token of [xpath_tokenizer_re.findall]: the two groups of the pattern. *)
Definition rawtok := (str * str)%type.

(** The longest prefix whose characters satisfy [p], and the rest. *)
Fixpoint span (p : char -> bool) (s : str) : str * str :=
  match s with
  | [] => ([], [])
  | c :: s' =>
      if p c then let '(v, r) := span p s' in (c :: v, r) else ([], s)
  end.

(** The text before the first [q], and the text after it. *)
Fixpoint until_char (q : char) (s : str) : option (str * str) :=
  match s with
  | [] => None
  | c :: s' =>
      if (c =? q)%N then Some ([], s')
      else match until_char q s' with
           | Some (v, r) => Some (c :: v, r)
           | None => None
           end
  end.

(** The class of the second group: any character but
    [/ [ ] ( ) @ ! =] and whitespace. *)
Definition name_char (c : char) : bool :=
  negb ((c =? SLASH) || (c =? LBRACKET) || (c =? RBRACKET) || (c =? LPAREN)
        || (c =? RPAREN) || (c =? AT) || (c =? BANG) || (c =? EQUALS))%N
  && negb (isspace c).

(** The second group: an optional braced namespace, then one or more
    characters of the class. *)
Definition match_name (s : str) : option (str * str) :=
  let plain :=
    match span name_char s with
    | ((_ :: _) as v, r) => Some (v, r)
    | _ => None
    end in
  match s with
  | c :: s1 =>
      if (c =? LBRACE)%N then
        match until_char RBRACE s1 with
        | Some ((_ :: _) as body, r) =>
            match span name_char r with
            | ((_ :: _) as v, r') => Some (LBRACE :: body ++ RBRACE :: v, r')
            | _ => plain
            end
        | _ => plain
        end
      else plain
  | [] => None
  end.

(** The alternatives after the first group: a name, or a run of whitespace
    (which [findall] reports as two empty groups). *)
Definition match_rest (s : str) : option (rawtok * str) :=
  match match_name s with
  | Some (v, r) => Some (([], v), r)
  | None =>
      match span isspace s with
      | (_ :: _, r) => Some (([], []), r)
      | _ => None
      end
  end.

Definition quoted_token (q : char) (s s1 : str) : option (rawtok * str) :=
  match until_char q s1 with
  | Some (v, r) => Some ((q :: v ++ [q], []), r)
  | None => match_rest s
  end.

Definition one_or_two (c : char) (s1 : str) : option (rawtok * str) :=
  match s1 with
  | d :: r => if (d =? c)%N then Some (([c; c], []), r)
              else Some (([c], []), s1)
  | [] => Some (([c], []), s1)
  end.

(** One match of the tokenizer pattern at the start of [s]: the token and
    the text after it, or [None] when no alternative matches there. *)
Definition next_match (s : str) : option (rawtok * str) :=
  match s with
  | [] => None
  | c :: s1 =>
      if (c =? SQUOTE)%N then quoted_token SQUOTE s s1
      else if (c =? DQUOTE)%N then quoted_token DQUOTE s s1
      else if (c =? COLON)%N then one_or_two COLON s1
      else if (c =? SLASH)%N then one_or_two SLASH s1
      else if (c =? DOT)%N then one_or_two DOT s1
      else if (c =? LPAREN)%N then
        match s1 with
        | d :: r => if (d =? RPAREN)%N then Some (([LPAREN; RPAREN], []), r)
                    else Some (([LPAREN], []), s1)
        | [] => Some (([LPAREN], []), s1)
        end
      else if (c =? BANG)%N then
        match s1 with
        | d :: r => if (d =? EQUALS)%N then Some (([BANG; EQUALS], []), r)
                    else None
        | [] => None
        end
      else if ((c =? STAR) || (c =? LBRACKET) || (c =? RBRACKET)
               || (c =? RPAREN) || (c =? AT) || (c =? EQUALS))%N
      then Some (([c], []), s1)
      else match_rest s
  end.

(** [xpath_tokenizer_re.findall(pattern)]: successive matches, skipping a
    character where nothing matches. *)
Fixpoint findall_loop (fuel : nat) (s : str) : list rawtok :=
  match fuel with
  | O => []
  | S f =>
      match s with
      | [] => []
      | _ :: s1 =>
          match next_match s with
          | Some (t, r) => t :: findall_loop f r
          | None => findall_loop f s1
          end
      end
  end.

Definition re_findall (s : str) : list rawtok := findall_loop (length s) s.

(** What [xpath_tokenizer] yields for one match when no namespace map is
    given: a name with a prefix raises. *)
Definition tokenizer_yield (t : rawtok) : result rawtok :=
  match snd t with
  | c :: _ =>
      if negb (c =? LBRACE)%N && existsb (fun d => (d =? COLON)%N) (snd t)
      then Raise SyntaxError
      else Return t
  | [] => Return t
  end.

(** [next()] on the token generator. *)
Inductive pulled :=
| Stop
| Fails (e : exn)
| Got (t : rawtok) (rest : list rawtok).

Definition pull (toks : list rawtok) : pulled :=
  match toks with
  | [] => Stop
  | t :: rest =>
      match tokenizer_yield t with
      | Return t' => Got t' rest
      | Raise e => Fails e
      end
  end.

(** The selectors the compiler builds. [NoSelector] stands for the [None]
    that [prepare_descendant] and [prepare_predicate] return when the
    tokens run out; calling it raises [TypeError]. *)
Inductive step :=
| Self
| Star
| Child (tag : str)
| Descendant (tag : str)
| HasAttr (key : str)
| AttrEq (key value : str)
| AttrNe (key value : str)
| NoSelector.

Inductive prepared :=
| Prepared (s : step) (rest : list rawtok)
| PrepRaise (e : exn)
| PrepBeyond.

(** [_is_wildcard_tag] *)
Definition is_wildcard_tag (tag : str) : bool :=
  str_eqb (firstn 3 tag) [LBRACE; STAR; RBRACE]
  || str_eqb (skipn (length tag - 2) tag) [RBRACE; STAR].

(** A tag written with an empty namespace is the plain tag. *)
Definition plain_tag (tag : str) : str :=
  if str_eqb (firstn 2 tag) [LBRACE; RBRACE] then skipn 2 tag else tag.

Definition prepare_child (t : rawtok) (rest : list rawtok) : prepared :=
  if is_wildcard_tag (snd t) then PrepBeyond
  else Prepared (Child (plain_tag (snd t))) rest.

Definition prepare_descendant (rest : list rawtok) : prepared :=
  match pull rest with
  | Stop => Prepared NoSelector []
  | Fails e => PrepRaise e
  | Got t rest' =>
      if str_eqb (fst t) [STAR] then Prepared (Descendant [STAR]) rest'
      else if truthy (fst t) then PrepRaise SyntaxError
      else if is_wildcard_tag (snd t) then PrepBeyond
      else Prepared (Descendant (plain_tag (snd t))) rest'
  end.

(** The token loop of [prepare_predicate]: the signature and the values
    collected up to the closing bracket. *)
Inductive pred_tokens :=
| PredRunOut
| PredFails (e : exn)
| PredClosed (signature : str) (predicate : list str) (rest : list rawtok).

Fixpoint predicate_loop (toks : list rawtok) (signature : str)
  (predicate : list str) : pred_tokens :=
  match toks with
  | [] => PredRunOut
  | t :: rest =>
      match tokenizer_yield t with
      | Raise e => PredFails e
      | Return (ty, tg) =>
          if str_eqb ty [RBRACKET] then PredClosed signature predicate rest
          else if negb (truthy ty) && negb (truthy tg) then
            predicate_loop rest signature predicate
          else
            match ty with
            | [] => predicate_loop rest (signature ++ lit "-") (predicate ++ [tg])
            | c :: _ =>
                if ((c =? SQUOTE) || (c =? DQUOTE))%N then
                  predicate_loop rest (signature ++ [SQUOTE])
                    (predicate ++ [removelast (tl ty)])
                else predicate_loop rest (signature ++ ty) (predicate ++ [tg])
            end
      end
  end.

(** The signatures of the predicates that are not modelled: tag, text and
    index predicates. *)
Definition other_signatures : list str :=
  [lit "-"; lit ".='"; lit ".!='"; lit "-='"; lit "-!='"; lit "-()"; lit "-()-"].

Definition prepare_predicate (rest : list rawtok) : prepared :=
  match predicate_loop rest [] [] with
  | PredRunOut => Prepared NoSelector []
  | PredFails e => PrepRaise e
  | PredClosed signature predicate rest' =>
      if str_eqb signature (lit "@-") then
        Prepared (HasAttr (nth 1 predicate [])) rest'
      else if str_eqb signature (lit "@-='") then
        Prepared (AttrEq (nth 1 predicate []) (last predicate [])) rest'
      else if str_eqb signature (lit "@-!='") then
        Prepared (AttrNe (nth 1 predicate []) (last predicate [])) rest'
      else if existsb (str_eqb signature) other_signatures then PrepBeyond
      else PrepRaise SyntaxError
  end.

(** [ops[token[0]](next, token)] *)
Definition prepare (t : rawtok) (rest : list rawtok) : prepared :=
  if str_eqb (fst t) [] then prepare_child t rest
  else if str_eqb (fst t) [STAR] then Prepared Star rest
  else if str_eqb (fst t) [DOT] then Prepared Self rest
  else if str_eqb (fst t) [DOT; DOT] then PrepBeyond
  else if str_eqb (fst t) [SLASH; SLASH] then prepare_descendant rest
  else if str_eqb (fst t) [LBRACKET] then prepare_predicate rest
  else PrepRaise KeyError.

Inductive compiled :=
| Selector (steps : list step)
| Raises (e : exn)
| Unmodelled.

(** The compile loop of [iterfind]; every round takes at least one token. *)
Fixpoint compile_loop (fuel : nat) (t : rawtok) (rest : list rawtok)
  (selector : list step) : compiled :=
  match fuel with
  | O => Selector selector
  | S f =>
      match prepare t rest with
      | PrepRaise e => Raises e
      | PrepBeyond => Unmodelled
      | Prepared s rest1 =>
          match pull rest1 with
          | Stop => Selector (selector ++ [s])
          | Fails e => Raises e
          | Got t1 rest2 =>
              if str_eqb (fst t1) [SLASH] then
                match pull rest2 with
                | Stop => Selector (selector ++ [s])
                | Fails e => Raises e
                | Got t2 rest3 => compile_loop f t2 rest3 (selector ++ [s])
                end
              else compile_loop f t1 rest2 (selector ++ [s])
          end
      end
  end.

Definition compile (path : str) : compiled :=
  if startswith path [SLASH] then Raises SyntaxError
  else
    let toks := re_findall path in
    match pull toks with
    | Stop => Raises TypeError
    | Fails e => Raises e
    | Got t rest => compile_loop (length toks) t rest []
    end.

Definition tag_matches (tag : str) (e : element) : bool :=
  str_eqb tag [STAR] || str_eqb (elem_tag e) tag.

(** One selector applied to the current result. *)
Definition select (s : step) (res : list element) : result (list element) :=
  match s with
  | Self => Return res
  | Star => Return (flat_map elem_children res)
  | Child tag =>
      Return (flat_map
                (fun e => filter (fun c => str_eqb (elem_tag c) tag)
                            (elem_children e)) res)
  | Descendant tag =>
      Return (flat_map (fun e => filter (tag_matches tag) (descendants e)) res)
  | HasAttr key =>
      Return (filter (fun e => match elem_get e key with
                               | Some _ => true | None => false end) res)
  | AttrEq key value =>
      Return (filter (fun e => match elem_get e key with
                               | Some v => str_eqb v value | None => false end)
                res)
  | AttrNe key value =>
      Return (filter (fun e => match elem_get e key with
                               | Some v => negb (str_eqb v value)
                               | None => false end) res)
  | NoSelector => Raise TypeError
  end.

Fixpoint run_selector (steps : list step) (res : list element)
  : result (list element) :=
  match steps with
  | [] => Return res
  | s :: steps' =>
      match select s res with
      | Return res' => run_selector steps' res'
      | Raise e => Raise e
      end
  end.

(** What a match consumes: a non-empty prefix [w] of the text; a
    whitespace token consumes whitespace only, and a closing bracket token
    comes from a closing bracket. *)
Definition consumes (s : str) (t : rawtok) (r : str) : Prop :=
  exists w, w <> [] /\ s = w ++ r /\
    (fst t = [] -> snd t = [] -> Forall (fun c => isspace c = true) w) /\
    (str_eqb (fst t) [RBRACKET] = true -> hd 0%N s = RBRACKET).

(** The signature of a closed predicate is strictly longer than [sig]. *)
Definition strictly_extends (sig : str) (res : pred_tokens) : Prop :=
  match res with
  | PredClosed sig' _ _ => exists x, x <> [] /\ sig' = sig ++ x
  | _ => True
  end.

Section Findall.

(** What the library does on a path outside the modelled part. *)
Variable ext : str -> element -> result (list element).

(** [elem.findall(path)] *)
Definition findall (elem : element) (path : str) : result (list element) :=
  let path := if (last path 0 =? SLASH)%N then path ++ [STAR] else path in
  match compile path with
  | Selector steps => run_selector steps [elem]
  | Raises e => Raise e
  | Unmodelled => ext path elem
  end.

End Findall.

End ElementPath.

(* ================================================================== *)
(** ** The catalog scanner: [find_channel_in_sites] *)

(** One file matched by the glob [*/*.channels.xml]: either [ET.parse]
    raises on it, or it yields a document. *)
Inductive site_file :=
| Unparsable (e : exn)
| Document (root : element).

(** The files of the sites directory, in the order the glob yields them. *)
Definition catalog := list site_file.

Definition XMLTV_ID : str := lit "xmltv_id".

(** [".//channel[@xmltv_id='{}']".format(tvg_id)] *)
Definition channel_query (tvg_id : str) : str :=
  lit ".//channel[@xmltv_id='" ++ tvg_id ++ lit "']".

(** The tokens of the fixed part of the query, up to the equals sign. *)
Definition query_head : list ElementPath.rawtok :=
  [(lit ".", []); (lit "//", []); ([], lit "channel"); (lit "[", []);
   (lit "@", []); ([], lit "xmltv_id"); (lit "=", [])].

Section Scanner.

Variable ext : str -> element -> result (list element).

(** The body of the [try] for one file: parse, query, return the first hit. *)
Definition search_file (tvg_id : str) (f : site_file) : result (option element) :=
  match f with
  | Unparsable e => Raise e
  | Document root =>
      match ElementPath.findall ext root (channel_query tvg_id) with
      | Raise e => Raise e
      | Return (channel :: _) => Return (Some channel)
      | Return [] => Return None
      end
  end.

Fixpoint find_channel_in_sites (tvg_id : str) (sites : catalog)
  : result (option element) :=
  match sites with
  | [] => Return None
  | f :: rest =>
      match search_file tvg_id f with
      | Return (Some channel) => Return (Some channel)
      | Return None => find_channel_in_sites tvg_id rest
      | Raise ParseError => find_channel_in_sites tvg_id rest
      | Raise _ => find_channel_in_sites tvg_id rest
      end
  end.

(* ================================================================== *)
(** ** The match pass of [main] (source lines 232-259) *)

(** The variables the loop updates; [definitions] are the children appended
    to [channels_root]. *)
Record MatchState := mkMatchState {
  definitions : list element;
  matched_channels : list Channel;
  matched_count : Z;
  skipped_count : Z
}.

Definition match_init : MatchState :=
  {| definitions := []; matched_channels := [];
     matched_count := 0; skipped_count := 0 |}.

(** [not tvg_id]: the identifier is [None] or empty. *)
Definition no_tvg_id (channel : Channel) : bool :=
  match tvg_id channel with
  | None => true
  | Some s => negb (truthy s)
  end.

Definition match_step (sites : catalog) (st : MatchState) (channel : Channel)
  : result MatchState :=
  match tvg_id channel with
  | None =>
      Return {| definitions := definitions st;
                matched_channels := matched_channels st;
                matched_count := matched_count st;
                skipped_count := skipped_count st + 1 |}
  | Some id =>
      if negb (truthy id) then
        Return {| definitions := definitions st;
                  matched_channels := matched_channels st;
                  matched_count := matched_count st;
                  skipped_count := skipped_count st + 1 |}
      else
        match find_channel_in_sites id sites with
        | Raise e => Raise e
        | Return (Some channel_element) =>
            Return {| definitions := definitions st ++ [channel_element];
                      matched_channels := matched_channels st ++ [channel];
                      matched_count := matched_count st + 1;
                      skipped_count := skipped_count st |}
        | Return None => Return st
        end
  end.

Fixpoint match_loop (sites : catalog) (channels : list Channel)
  (st : MatchState) : result MatchState :=
  match channels with
  | [] => Return st
  | channel :: rest =>
      match match_step sites st channel with
      | Return st' => match_loop sites rest st'
      | Raise e => Raise e
      end
  end.

(** The count printed as removed (source line 259). *)
Definition removed_count (total_channels : Z) (st : MatchState) : Z :=
  total_channels - matched_count st - skipped_count st.

(** Whether the scanner finds a definition for the channel's identifier. *)
Definition found_in (sites : catalog) (channel : Channel) : bool :=
  match tvg_id channel with
  | Some id =>
      match find_channel_in_sites id sites with
      | Return (Some _) => true
      | _ => false
      end
  | None => false
  end.

(** The three classes of the match pass: no identifier (skipped),
    identifier found (matched), identifier not found (removed). *)
Definition is_matched (sites : catalog) (channel : Channel) : bool :=
  negb (no_tvg_id channel) && found_in sites channel.

Definition is_removed (sites : catalog) (channel : Channel) : bool :=
  negb (no_tvg_id channel) && negb (found_in sites channel).

End Scanner.

(** A stand-in for the unmodelled part of the path language in examples
    whose paths never reach it. *)
Definition no_ext : str -> element -> result (list element) :=
  fun _ _ => Raise SyntaxError.

(** *** Example catalog *)

Definition channel_def (id lang : str) : element :=
  Element (lit "channel") [(lit "site", lit "example.com"); (lit "lang", lang);
                           (XMLTV_ID, id); (lit "site_id", lit "1")] [].

Definition sample_catalog : catalog :=
  [Unparsable ParseError;
   Document (Element (lit "channels") []
               [channel_def (lit "a") (lit "en");
                channel_def (lit "o'brien") (lit "en");
                channel_def (lit "abc") (lit "en")])].

(** A playlist whose identifier closes the quoted value and opens a second
    predicate. *)
Definition injected_id : str := lit "a'][@lang='en".

Definition injected_playlist : str :=
  join_nl [lit "#EXTINF:-1 tvg-id=" ++ [DQUOTE] ++ injected_id ++ [DQUOTE]
             ++ lit ",Channel A";
           lit "http://a"].

(** The text of the example in section 8 of the specification: one entry
    whose identifier is in the catalog, one whose identifier is not, and one
    without identifier. *)
Definition three_channels : list Channel :=
  [make_channel [lit "#EXTINF:-1 tvg-id=" ++ [DQUOTE] ++ lit "abc" ++ [DQUOTE]
                   ++ lit ",ABC"] (lit "http://abc");
   make_channel [lit "#EXTINF:-1 tvg-id=" ++ [DQUOTE] ++ lit "xyz" ++ [DQUOTE]
                   ++ lit ",XYZ"] (lit "http://xyz");
   make_channel [lit "#EXTINF:-1,None"] (lit "http://none")].

(* ================================================================== *)
(** ** The match cache and the guide freshness check *)

Definition CACHE_MAX_AGE : Q := (24 * 60 * 60)%Q.
Definition GUIDE_CACHE_MAX_AGE : Q := (12 * 60 * 60)%Q.

(** [a > b] on clock readings. *)
Definition Qgtb (a b : Q) : bool := negb (Qle_bool a b).

(** The [channels_xml] string of a cache record: what [ET.tostring] wrote
    for a tree, which [ET.fromstring] reads back, or a text it rejects. *)
Inductive xml_text :=
| XmlOf (root : element)
| XmlMalformed.

(** What the cache file may hold: the record [json.dump] wrote, or
    something on which opening, [json.load] or a field lookup raises. *)
Inductive cache_content :=
| CacheJson (timestamp : Q) (matched : list Channel) (channels_xml : xml_text)
| CacheCorrupt (e : exn).

(** The dict returned by [load_channel_cache]. *)
Record CacheResult := mkCacheResult {
  cached_channels : list Channel;
  cached_root : element
}.

(** The file systems and documents a run reads and writes. *)
Record World := mkWorld {
  cache_file : option cache_content;   (* ./epg-workspace/channel-cache.json *)
  channels_file : option element;      (* epg/channels.xml *)
  playlist_file : option str;          (* ./playlist-filtered.m3u *)
  guide_file : option Q                (* ./guide.xml: its st_mtime *)
}.

(** The body of the [try] of [load_channel_cache]; [now] is [time.time()]. *)
Definition load_cache_body (now : Q) (content : cache_content)
  : result (option CacheResult) :=
  match content with
  | CacheCorrupt e => Raise e
  | CacheJson timestamp matched channels_xml =>
      let cache_age := (now - timestamp)%Q in
      if Qgtb cache_age CACHE_MAX_AGE then Return None
      else
        match channels_xml with
        | XmlMalformed => Raise ParseError
        | XmlOf channels_root =>
            Return (Some {| cached_channels := matched;
                            cached_root := channels_root |})
        end
  end.

Definition load_channel_cache (now : Q) (file : option cache_content)
  : result (option CacheResult) :=
  match file with
  | None => Return None
  | Some content =>
      match load_cache_body now content with
      | Return r => Return r
      | Raise _ => Return None
      end
  end.

(** [save_channel_cache]: the record written to the cache file. *)
Definition save_channel_cache (now : Q) (matched : list Channel)
  (channels_root : element) (w : World) : World :=
  {| cache_file := Some (CacheJson now matched (XmlOf channels_root));
     channels_file := channels_file w;
     playlist_file := playlist_file w;
     guide_file := guide_file w |}.

(** [is_guide_recent]; [guide] is the modification time of the guide
    artifact when it exists. *)
Definition is_guide_recent (now : Q) (guide : option Q) : bool :=
  match guide with
  | None => false
  | Some st_mtime =>
      let guide_age := (now - st_mtime)%Q in
      if Qgtb guide_age GUIDE_CACHE_MAX_AGE then false else true
  end.

(* ================================================================== *)
(** ** The run of [main] *)

Record Args := mkArgs {
  refresh : bool;
  refresh_epg : bool
}.

(** What a run meets outside the program: the outcome of the commands and
    of the download, the catalog, the library's behaviour on paths outside
    the modelled part, and the clock readings.  [guide_path_exists] is the
    test of source line 330: whether [epg/guide.xml] exists once the
    generator has returned, written by this run or left by an earlier
    one. *)
Record Env := mkEnv {
  epg_cloned : bool;
  git_ok : bool;
  npm_ok : bool;
  download : result str;
  sites : catalog;
  path_ext : str -> element -> result (list element);
  clock_load : Q;
  clock_save : Q;
  clock_guide : Q;
  grab_ok : bool;
  guide_path_exists : bool;
  clock_copy : Q
}.

Inductive event :=
| GitClone | GitPull | NpmInstall
| Downloaded | CatalogScanned | CacheSaved
| ChannelsWritten | PlaylistWritten
| GrabRun | GuideCopied.

(** How a run ends: [main] returns, [sys.exit(code)], or an exception
    nobody catches (the interpreter then exits with status 1). *)
Inductive outcome :=
| Finished
| SysExit (code : Z)
| Uncaught (e : exn).

Record RunState := mkRunState {
  world : World;
  trace : list event
}.

(** Computations of a run: state passing, and an early end. *)
Definition M (A : Type) : Type := RunState -> RunState * (A + outcome).

Definition ret {A : Type} (a : A) : M A := fun s => (s, inl a).

Definition bind {A B : Type} (m : M A) (k : A -> M B) : M B :=
  fun s => match m s with
           | (s', inl a) => k a s'
           | (s', inr o) => (s', inr o)
           end.

Notation "x <- m ;; k" := (bind m (fun x => k))
  (at level 61, m at next level, right associativity).
Notation "m ;; k" := (bind m (fun _ => k))
  (at level 61, right associativity).

Definition emit (ev : event) : M unit :=
  fun s => ({| world := world s; trace := trace s ++ [ev] |}, inl tt).

Definition sys_exit {A : Type} (code : Z) : M A := fun s => (s, inr (SysExit code)).

Definition raise {A : Type} (e : exn) : M A := fun s => (s, inr (Uncaught e)).

Definition lift {A : Type} (r : result A) : M A :=
  match r with
  | Return a => ret a
  | Raise e => raise e
  end.

Definition read_world : M World := fun s => (s, inl (world s)).

Definition update_world (f : World -> World) : M unit :=
  fun s => ({| world := f (world s); trace := trace s |}, inl tt).

(** [run_command(cmd)] with [check=True]. *)
Definition run_command (ev : event) (ok : bool) : M unit :=
  emit ev ;; if ok then ret tt else raise CalledProcessError.

(** Source lines 192-208: workspace, repository, dependencies. *)
Definition setup (env : Env) : M unit :=
  run_command (if epg_cloned env then GitPull else GitClone) (git_ok env) ;;
  run_command NpmInstall (npm_ok env).

Definition new_channels_root (defs : list element) : element :=
  Element (lit "channels") [] defs.

(** Source lines 211-262: the cached result, or a download, a match pass
    and a save.  The value is [(matched_channels, channels_root,
    matched_count)]. *)
Definition obtain_matches (args : Args) (env : Env)
  : M (list Channel * element * Z) :=
  cache <- (if refresh args then ret None
            else w <- read_world ;;
                 lift (load_channel_cache (clock_load env) (cache_file w))) ;;
  match cache with
  | Some c =>
      ret (cached_channels c, cached_root c,
           Z.of_nat (length (cached_channels c)))
  | None =>
      emit Downloaded ;;
      m3u_content <- lift (download env) ;;
      let channels := parse_m3u m3u_content in
      emit CatalogScanned ;;
      st <- lift (match_loop (path_ext env) (sites env) channels match_init) ;;
      let channels_root := new_channels_root (definitions st) in
      update_world (save_channel_cache (clock_save env) (matched_channels st)
                      channels_root) ;;
      emit CacheSaved ;;
      ret (matched_channels st, channels_root, matched_count st)
  end.

(** The text written to the filtered playlist. *)
Definition playlist_text (matched : list Channel) : str :=
  lit "#EXTM3U" ++ [LF]
  ++ flat_map (fun channel => full_entry channel ++ [LF]) matched.

Definition write_channels (channels_root : element) (w : World) : World :=
  {| cache_file := cache_file w;
     channels_file := Some channels_root;
     playlist_file := playlist_file w;
     guide_file := guide_file w |}.

Definition write_playlist (matched : list Channel) (w : World) : World :=
  {| cache_file := cache_file w;
     channels_file := channels_file w;
     playlist_file := Some (playlist_text matched);
     guide_file := guide_file w |}.

Definition copy_guide (now : Q) (w : World) : World :=
  {| cache_file := cache_file w;
     channels_file := channels_file w;
     playlist_file := playlist_file w;
     guide_file := Some now |}.

(** Source lines 296-355: the external generator, and the copy of
    [epg/guide.xml] when that file exists afterwards. *)
Definition generate (env : Env) : M unit :=
  emit GrabRun ;;
  if grab_ok env then
    if guide_path_exists env then
      update_world (copy_guide (clock_copy env)) ;; emit GuideCopied
    else ret tt
  else sys_exit 1.

(** Source lines 264-355: the zero-match guard, the two output files, and
    the guide. *)
Definition produce_outputs (args : Args) (env : Env)
  (m : list Channel * element * Z) : M unit :=
  let '(matched, channels_root, count) := m in
  if (count =? 0)%Z then sys_exit 1
  else
    update_world (write_channels channels_root) ;;
    emit ChannelsWritten ;;
    update_world (write_playlist matched) ;;
    emit PlaylistWritten ;;
    w <- read_world ;;
    if negb (refresh_epg args) && is_guide_recent (clock_guide env) (guide_file w)
    then ret tt
    else generate env.

Definition main (args : Args) (env : Env) : M unit :=
  setup env ;;
  m <- obtain_matches args env ;;
  produce_outputs args env m.

Definition start (w : World) : RunState := {| world := w; trace := [] |}.

(** A run from a world: the final state and how the run ended. *)
Definition run (args : Args) (env : Env) (w : World) : RunState * outcome :=
  match main args env (start w) with
  | (s, inl _) => (s, Finished)
  | (s, inr o) => (s, o)
  end.

(** The [matched_count] a run reaches the guard with, if it gets there. *)
Definition matched_count_reached (args : Args) (env : Env) (w : World)
  : option Z :=
  match (setup env ;; obtain_matches args env) (start w) with
  | (_, inl (_, _, count)) => Some count
  | (_, inr _) => None
  end.

(** *** Example runs *)

Definition empty_world : World :=
  {| cache_file := None; channels_file := None;
     playlist_file := None; guide_file := None |}.

(** A run on a playlist none of whose identifiers is in the catalog. *)
Definition env_no_match (now : Q) : Env :=
  {| epg_cloned := true; git_ok := true; npm_ok := true;
     download := Return (join_nl [lit "#EXTINF:-1 tvg-id=" ++ [DQUOTE]
                                    ++ lit "xyz" ++ [DQUOTE] ++ lit ",XYZ";
                                  lit "http://xyz"]);
     sites := sample_catalog;
     path_ext := no_ext;
     clock_load := now; clock_save := now; clock_guide := now;
     grab_ok := true; guide_path_exists := true; clock_copy := now |}.

Definition no_flags : Args := {| refresh := false; refresh_epg := false |}.

(** The events of the two output files. *)
Definition output_event (ev : event) : bool :=
  match ev with
  | ChannelsWritten | PlaylistWritten => true
  | _ => false
  end.

(** The events of a fresh match pass. *)
Definition rescan_event (ev : event) : bool :=
  match ev with
  | Downloaded | CatalogScanned => true
  | _ => false
  end.

(** Between two states neither output file was written. *)
Definition outputs_untouched (s s' : RunState) : Prop :=
  channels_file (world s') = channels_file (world s) /\
  playlist_file (world s') = playlist_file (world s) /\
  existsb output_event (trace s') = existsb output_event (trace s).

(** A computation that writes neither output file. *)
Definition preserves {A : Type} (m : M A) : Prop :=
  forall s s' r, m s = (s', r) -> outputs_untouched s s'.

(* ================================================================== *)
(** ** Vocabulary for further properties of the program *)

(** A line as the parser stores it: trimmed, and within one line. *)
Definition stored_line (l : str) : Prop := strip l = l /\ ~ In LF l.

(** The shape of every entry the parser builds: an [#EXTINF] line first,
    then auxiliary directives only, a non-empty URL, every line stored
    trimmed, and the fields derived from the lines. *)
Definition well_formed_entry (ch : Channel) : Prop :=
  exists first rest,
    ch = make_channel (first :: rest) (stream_url ch) /\
    startswith first EXTINF = true /\
    Forall (fun m => startswith m HASH = true /\ startswith m EXTINF = false)
      rest /\
    stream_url ch <> [] /\
    Forall stored_line (stream_url ch :: first :: rest).

(** The lines of the text that [main] writes for one channel. *)
Definition entry_lines (ch : Channel) : list str :=
  metadata_lines ch ++ [stream_url ch].

(** The definitions a query for [id] selects in a catalog, file by file
    and in document order: the [channel] elements below the root of each
    file that parses whose [xmltv_id] is [id]. *)
Definition document_hits (id : str) (root : element) : list element :=
  filter (fun e => match elem_get e XMLTV_ID with
                   | Some v => str_eqb v id
                   | None => false
                   end)
    (filter (ElementPath.tag_matches (lit "channel")) (descendants root)).

Definition catalog_hits (id : str) (sites : catalog) : list element :=
  flat_map (fun f => match f with
                     | Document root => document_hits id root
                     | Unparsable _ => []
                     end) sites.

(** Two worlds that differ at most in the cache file. *)
Definition same_but_cache (w1 w2 : World) : Prop :=
  channels_file w1 = channels_file w2 /\
  playlist_file w1 = playlist_file w2 /\
  guide_file w1 = guide_file w2.

(** *** Further examples *)

(** A playlist with an option line, surrounding whitespace and a blank
    line before the URL. *)
Definition playlist_padded : str :=
  join_nl [lit "#EXTM3U";
           lit "  #EXTINF:-1 tvg-id=" ++ [DQUOTE] ++ lit "abc" ++ [DQUOTE]
             ++ lit ",ABC " ++ [13%N];
           lit "#EXTVLCOPT:http-user-agent=x";
           lit "";
           lit " http://abc "].

(** A run whose playlist has one entry that the sample catalog defines. *)
Definition env_one_match (now : Q) : Env :=
  {| epg_cloned := true; git_ok := true; npm_ok := true;
     download := Return playlist_padded;
     sites := sample_catalog;
     path_ext := no_ext;
     clock_load := now; clock_save := now; clock_guide := now;
     grab_ok := true; guide_path_exists := true; clock_copy := now |}.

(** The entry of a written playlist as an item of a well-formed playlist. *)
Definition entry_item (ch : Channel) : item :=
  Entry (hd [] (metadata_lines ch)) (tl (metadata_lines ch)) []
    (stream_url ch).

(** The written playlist as a well-formed playlist: the header, one
    complete entry per channel, and the empty last line. *)
Definition written_playlist (chs : list Channel) : playlist :=
  {| items := Junk (lit "#EXTM3U") :: map entry_item chs ++ [Junk []];
     unfinished := None |}.

(** The first event of every run: the clone or the update of the
    repository. *)
Definition repository_event (env : Env) : event :=
  if epg_cloned env then GitPull else GitClone.

(** A world whose cache file holds the match of the first of the three
    example channels, saved at [ts]. *)
Definition world_cached (ts : Q) : World :=
  {| cache_file :=
       Some (CacheJson ts (firstn 1 three_channels)
               (XmlOf (new_channels_root [channel_def (lit "abc") (lit "en")])));
     channels_file := None;
     playlist_file := None;
     guide_file := None |}.

Definition refresh_only : Args := {| refresh := true; refresh_epg := false |}.

(* ================================================================== *)
(** ** Reasoning about the parser loops *)

Ltac list_len :=
  repeat (progress (rewrite ?length_app; cbn [length])); lia.

Ltac list_assoc :=
  repeat (progress (rewrite <- ?app_assoc; cbn [app])); reflexivity.

Section ParserLoops.

Lemma span_lines_spec g ls :
  let '(a, r) := span_lines g ls in
  ls = a ++ r /\ Forall (fun l => g l = true) a /\ stops g r.
Proof.
  induction ls as [|l ls IH]; simpl.
  - split; [reflexivity | split; [constructor | exact I]].
  - destruct (g l) eqn:E.
    + destruct (span_lines g ls) as [a r]. destruct IH as (-> & Ha & Hr).
      split; [reflexivity | split; [constructor; assumption | assumption]].
    + split; [reflexivity | split; [constructor | exact E]].
Qed.

Lemma nth_error_mid {A : Type} (pre : list A) x rest :
  nth_error (pre ++ x :: rest) (length pre) = Some x.
Proof. induction pre; simpl; auto. Qed.

Lemma nth_error_stop {A : Type} (pre rest : list A) :
  nth_error (pre ++ rest) (length pre) = hd_error rest.
Proof. induction pre; simpl; auto; destruct rest; reflexivity. Qed.

Lemma snoc_app {A : Type} (pre : list A) x rest :
  pre ++ x :: rest = (pre ++ [x]) ++ rest.
Proof. rewrite <- app_assoc. reflexivity. Qed.

Lemma length_snoc {A : Type} (pre : list A) x :
  length (pre ++ [x]) = S (length pre).
Proof. rewrite length_app. simpl. lia. Qed.

Lemma meta_loop_spec aux : forall fuel pre rest md,
  length aux <= fuel ->
  Forall (fun l => is_aux l = true) aux ->
  stops is_aux rest ->
  meta_loop fuel (pre ++ aux ++ rest) (length pre) md
  = (length pre + length aux, md ++ map strip aux).
Proof.
  induction aux as [|a aux IH]; intros fuel pre rest md Hf Ha Hs.
  - simpl. rewrite Nat.add_0_r, app_nil_r.
    destruct fuel; simpl; auto.
    rewrite nth_error_stop. destruct rest as [|l rest]; simpl; auto.
    simpl in Hs. rewrite Hs. reflexivity.
  - destruct fuel as [|fuel]; [simpl in Hf; lia|].
    inversion Ha as [|? ? Ha1 Ha2]; subst.
    simpl. rewrite nth_error_mid, Ha1.
    rewrite snoc_app, <- length_snoc with (x := a).
    rewrite IH; auto; [|simpl in Hf; lia].
    rewrite length_snoc, <- app_assoc. simpl. f_equal. lia.
Qed.

Lemma blank_loop_spec blanks : forall fuel pre rest,
  length blanks <= fuel ->
  Forall (fun l => is_blank l = true) blanks ->
  stops is_blank rest ->
  blank_loop fuel (pre ++ blanks ++ rest) (length pre)
  = length pre + length blanks.
Proof.
  induction blanks as [|a blanks IH]; intros fuel pre rest Hf Ha Hs.
  - simpl. rewrite Nat.add_0_r.
    destruct fuel; simpl; auto.
    rewrite nth_error_stop. destruct rest as [|l rest]; simpl; auto.
    simpl in Hs. rewrite Hs. reflexivity.
  - destruct fuel as [|fuel]; [simpl in Hf; lia|].
    inversion Ha as [|? ? Ha1 Ha2]; subst.
    simpl. rewrite nth_error_mid, Ha1.
    rewrite snoc_app, <- length_snoc with (x := a).
    rewrite IH; auto; [|simpl in Hf; lia].
    rewrite length_snoc. lia.
Qed.

(** A blank line is not a directive, so the metadata loop stops on it. *)
Lemma blank_not_aux l : is_blank l = true -> is_aux l = false.
Proof.
  unfold is_blank, is_aux. destruct (strip l); simpl; auto. discriminate.
Qed.

(** Past the end of the input the outer loop returns what it has. *)
Lemma main_loop_past fuel lines i acc :
  length lines <= i -> main_loop fuel lines i acc = acc.
Proof.
  intros H. destruct fuel; simpl; auto.
  apply nth_error_None in H. rewrite H. reflexivity.
Qed.

(** One iteration of the outer loop on an [#EXTINF] line, in terms of the
    lines that follow it: the auxiliary run, the blank run and the rest. *)
Lemma main_loop_extinf fuel pre p aux blanks rest acc :
  is_extinf p = true ->
  Forall (fun l => is_aux l = true) aux ->
  Forall (fun l => is_blank l = true) blanks ->
  stops is_aux (blanks ++ rest) ->
  stops is_blank rest ->
  main_loop (S fuel) (pre ++ p :: aux ++ blanks ++ rest) (length pre) acc
  = match rest with
    | [] => acc
    | u :: rest' =>
        main_loop fuel (pre ++ p :: aux ++ blanks ++ rest)
          (length (pre ++ p :: aux ++ blanks ++ [u]))
          (acc ++ [make_channel (strip p :: map strip aux) (strip u)])
    end.
Proof.
  intros Hp Ha Hb Hsa Hsb.
  cbn [main_loop]. rewrite nth_error_mid. cbv zeta.
  unfold is_extinf in Hp. rewrite Hp.
  set (lines := pre ++ p :: aux ++ blanks ++ rest).
  assert (E1 : meta_loop (length lines) lines (S (length pre)) [strip p]
               = (S (length pre) + length aux, strip p :: map strip aux)).
  { unfold lines. rewrite snoc_app, <- length_snoc with (x := p).
    rewrite meta_loop_spec; auto.
    rewrite !length_app. simpl. lia. }
  rewrite E1.
  assert (E2 : blank_loop (length lines) lines (S (length pre) + length aux)
               = S (length pre) + length aux + length blanks).
  { unfold lines. rewrite snoc_app, app_assoc.
    replace (S (length pre) + length aux)
      with (length ((pre ++ [p]) ++ aux))
      by (rewrite !length_app; simpl; lia).
    rewrite blank_loop_spec; auto.
    rewrite !length_app. simpl. lia. }
  rewrite E2.
  assert (E3 : nth_error lines (S (length pre) + length aux + length blanks)
               = hd_error rest).
  { unfold lines. rewrite snoc_app, !app_assoc.
    replace (S (length pre) + length aux + length blanks)
      with (length (((pre ++ [p]) ++ aux) ++ blanks))
      by (rewrite !length_app; simpl; lia).
    apply nth_error_stop. }
  rewrite E3. destruct rest as [|u rest']; simpl.
  - apply main_loop_past. unfold lines. list_len.
  - f_equal. list_len.
Qed.

(** One iteration of the outer loop on any other line. *)
Lemma main_loop_other fuel pre l rest acc :
  is_extinf l = false ->
  main_loop (S fuel) (pre ++ l :: rest) (length pre) acc
  = main_loop fuel (pre ++ l :: rest) (length (pre ++ [l])) acc.
Proof.
  intros Hl. cbn [main_loop]. rewrite nth_error_mid. cbv zeta.
  unfold is_extinf in Hl. rewrite Hl, length_snoc. reflexivity.
Qed.

Lemma main_loop_sound fuel : forall pre rest acc ch,
  In ch (main_loop fuel (pre ++ rest) (length pre) acc) ->
  In ch acc \/ entry_at (pre ++ rest) ch.
Proof.
  induction fuel as [|fuel IH]; intros pre rest acc ch H.
  - left. exact H.
  - destruct rest as [|l rest].
    + rewrite main_loop_past in H by (rewrite app_nil_r; lia). auto.
    + destruct (is_extinf l) eqn:El.
      * pose proof (span_lines_spec is_aux rest) as Sa.
        destruct (span_lines is_aux rest) as [aux r1].
        destruct Sa as (-> & Ha & Hsa).
        pose proof (span_lines_spec is_blank r1) as Sb.
        destruct (span_lines is_blank r1) as [blanks r2].
        destruct Sb as (-> & Hb & Hsb).
        rewrite main_loop_extinf in H by assumption.
        destruct r2 as [|u r3]; [auto|].
        assert (E : pre ++ l :: aux ++ blanks ++ u :: r3
                    = (pre ++ l :: aux ++ blanks ++ [u]) ++ r3) by list_assoc.
        rewrite E in H. apply IH in H. rewrite <- E in H.
        destruct H as [H|H]; [|auto].
        apply in_app_or in H. destruct H as [H|[H|[]]]; [auto|].
        right. exists pre, l, aux, blanks, u, r3.
        repeat split; auto.
        intros ->. exact Hsa.
      * rewrite main_loop_other in H by assumption.
        rewrite snoc_app in H. apply IH in H. rewrite <- snoc_app in H.
        exact H.
Qed.

(** Every record returned by the parser comes from such a run of lines. *)
Lemma parse_lines_sound lines ch :
  In ch (parse_lines lines) -> entry_at lines ch.
Proof.
  intros H. apply (main_loop_sound (length lines) [] lines []) in H.
  destruct H as [[]|H]. exact H.
Qed.

(** The outer loop terminates: its result is the same for every fuel that
    covers the lines still to be read. *)
Lemma main_loop_fuel f1 : forall f2 pre rest acc,
  length rest <= f1 -> length rest <= f2 ->
  main_loop f1 (pre ++ rest) (length pre) acc
  = main_loop f2 (pre ++ rest) (length pre) acc.
Proof.
  induction f1 as [|f1 IH]; intros f2 pre rest acc H1 H2.
  - destruct rest; [|simpl in H1; lia].
    rewrite !main_loop_past by (rewrite app_nil_r; lia). reflexivity.
  - destruct rest as [|l rest].
    { rewrite !main_loop_past by (rewrite app_nil_r; lia). reflexivity. }
    destruct f2 as [|f2]; [simpl in H2; lia|].
    simpl in H1, H2.
    destruct (is_extinf l) eqn:El.
    + pose proof (span_lines_spec is_aux rest) as Sa.
      destruct (span_lines is_aux rest) as [aux r1].
      destruct Sa as (-> & Ha & Hsa).
      pose proof (span_lines_spec is_blank r1) as Sb.
      destruct (span_lines is_blank r1) as [blanks r2].
      destruct Sb as (-> & Hb & Hsb).
      rewrite !main_loop_extinf by assumption.
      destruct r2 as [|u r3]; [reflexivity|].
      assert (E : pre ++ l :: aux ++ blanks ++ u :: r3
                  = (pre ++ l :: aux ++ blanks ++ [u]) ++ r3) by list_assoc.
      rewrite E. rewrite !length_app in H1, H2. simpl in H1, H2.
      apply IH; lia.
    + rewrite !main_loop_other by assumption.
      rewrite snoc_app. apply IH; lia.
Qed.


End ParserLoops.

Lemma forallb_Forall_true {A : Type} (f : A -> bool) l :
  forallb f l = true -> Forall (fun x => f x = true) l.
Proof. intros H. apply Forall_forall. apply forallb_forall. exact H. Qed.

Lemma is_url_stops u rest blanks :
  is_url u = true ->
  Forall (fun l => is_blank l = true) blanks ->
  stops is_aux (blanks ++ u :: rest) /\ stops is_blank (u :: rest).
Proof.
  unfold is_url, is_directive. intros H Hb.
  apply andb_true_iff in H. destruct H as [H1 H2].
  apply negb_true_iff in H1, H2. split; [|exact H1].
  destruct blanks as [|b blanks]; simpl.
  - unfold is_aux. rewrite H2. reflexivity.
  - inversion Hb; subst. apply blank_not_aux. assumption.
Qed.

(** The outer loop over the items of a well-formed playlist. *)
Lemma main_loop_items its : forall fuel pre tail acc,
  forallb valid_item its = true ->
  length (flat_map item_lines its ++ tail) <= fuel ->
  main_loop fuel (pre ++ flat_map item_lines its ++ tail) (length pre) acc
  = main_loop (length tail) ((pre ++ flat_map item_lines its) ++ tail)
      (length (pre ++ flat_map item_lines its))
      (acc ++ flat_map item_records its).
Proof.
  induction its as [|it its IH]; intros fuel pre tail acc Hv Hf.
  - simpl in *. rewrite !app_nil_r. apply main_loop_fuel; lia.
  - simpl in Hv. apply andb_true_iff in Hv. destruct Hv as [Hit Hv].
    destruct fuel as [|fuel];
      [destruct it; simpl in Hf; lia|].
    destruct it as [l|p aux blanks u]; simpl in Hit.
    + apply negb_true_iff in Hit.
      cbn [flat_map item_lines item_records app].
      rewrite main_loop_other by assumption.
      rewrite (snoc_app pre l). rewrite IH; auto; [|simpl in Hf; lia].
      rewrite <- (app_assoc pre [l]). reflexivity.
    + apply andb_true_iff in Hit. destruct Hit as [Hit Hu].
      apply andb_true_iff in Hit. destruct Hit as [Hit Hb].
      apply andb_true_iff in Hit. destruct Hit as [Hp Ha].
      apply forallb_Forall_true in Ha, Hb.
      destruct (is_url_stops u (flat_map item_lines its ++ tail) blanks Hu Hb)
        as [Hsa Hsb].
      cbn [flat_map item_lines item_records].
      assert (E : pre ++ ((p :: aux ++ blanks ++ [u]) ++ flat_map item_lines its)
                      ++ tail
                  = pre ++ p :: aux ++ blanks
                        ++ u :: (flat_map item_lines its ++ tail))
        by list_assoc.
      rewrite E. rewrite main_loop_extinf by assumption. rewrite <- E.
      assert (E' : pre ++ ((p :: aux ++ blanks ++ [u]) ++ flat_map item_lines its)
                       ++ tail
                   = (pre ++ p :: aux ++ blanks ++ [u])
                       ++ flat_map item_lines its ++ tail)
        by list_assoc.
      rewrite E'. rewrite IH; auto.
      * f_equal; [f_equal; list_assoc | f_equal; list_assoc | list_assoc].
      * cbn [flat_map item_lines] in Hf. revert Hf. list_len.
Qed.

Lemma main_loop_unfinished o pre acc :
  valid_unfinished o = true ->
  main_loop (length (unfinished_lines o)) (pre ++ unfinished_lines o)
    (length pre) acc = acc.
Proof.
  destruct o as [[[p aux] blanks]|]; intros Hv;
    cbn [unfinished_lines valid_unfinished length] in *.
  - apply andb_true_iff in Hv. destruct Hv as [Hv Hb].
    apply andb_true_iff in Hv. destruct Hv as [Hp Ha].
    apply forallb_Forall_true in Ha, Hb.
    replace (pre ++ p :: aux ++ blanks)
      with (pre ++ p :: aux ++ blanks ++ []) by (rewrite app_nil_r; reflexivity).
    rewrite main_loop_extinf; auto.
    + rewrite app_nil_r. destruct blanks as [|b blanks]; simpl; auto.
      inversion Hb; subst. apply blank_not_aux. assumption.
    + exact I.
  - reflexivity.
Qed.

Lemma parse_lines_playlist pl :
  valid_playlist pl = true ->
  parse_lines (playlist_lines pl) = complete_entries pl.
Proof.
  unfold valid_playlist, parse_lines, playlist_lines, complete_entries.
  intros Hv. apply andb_true_iff in Hv. destruct Hv as [Hi Hu].
  pose proof (main_loop_items (items pl) _ [] (unfinished_lines (unfinished pl))
                [] Hi (le_n _)) as E.
  cbn [app length] in E. rewrite E.
  apply main_loop_unfinished. exact Hu.
Qed.


Lemma join_nl_snoc md url :
  md <> [] -> join_nl (md ++ [url]) = join_nl md ++ LF :: url.
Proof.
  induction md as [|m md IH]; intros H; [congruence|].
  destruct md as [|m' md]; [reflexivity|].
  change (join_nl ((m :: m' :: md) ++ [url]))
    with (m ++ LF :: join_nl ((m' :: md) ++ [url])).
  rewrite IH by discriminate.
  change (join_nl (m :: m' :: md)) with (m ++ LF :: join_nl (m' :: md)).
  rewrite <- app_assoc. reflexivity.
Qed.

Lemma map_fixed {A : Type} (f : A -> A) l :
  Forall (fun x => f x = x) l -> map f l = l.
Proof. induction 1; simpl; congruence. Qed.

(** The loop started in the middle of the lines does what it does on the
    remaining lines alone. *)
Lemma main_loop_shift fuel : forall pre rest acc,
  main_loop fuel (pre ++ rest) (length pre) acc
  = acc ++ main_loop fuel rest 0 [].
Proof.
  induction fuel as [|fuel IH]; intros pre rest acc.
  - simpl. rewrite app_nil_r. reflexivity.
  - destruct rest as [|l rest].
    + rewrite main_loop_past by (rewrite app_nil_r; lia).
      simpl. rewrite app_nil_r. reflexivity.
    + destruct (is_extinf l) eqn:El.
      * pose proof (span_lines_spec is_aux rest) as Sa.
        destruct (span_lines is_aux rest) as [aux r1].
        destruct Sa as (-> & Ha & Hsa).
        pose proof (span_lines_spec is_blank r1) as Sb.
        destruct (span_lines is_blank r1) as [blanks r2].
        destruct Sb as (-> & Hb & Hsb).
        rewrite main_loop_extinf by assumption.
        pose proof (main_loop_extinf fuel [] l aux blanks r2 [] El Ha Hb Hsa Hsb)
          as E0.
        cbn [app length] in E0. rewrite E0.
        destruct r2 as [|u r3]; [rewrite app_nil_r; reflexivity|].
        assert (E : pre ++ l :: aux ++ blanks ++ u :: r3
                    = (pre ++ l :: aux ++ blanks ++ [u]) ++ r3) by list_assoc.
        rewrite E, IH.
        assert (E' : l :: aux ++ blanks ++ u :: r3
                     = (l :: aux ++ blanks ++ [u]) ++ r3) by list_assoc.
        rewrite E'.
        rewrite (IH (l :: aux ++ blanks ++ [u]) r3).
        rewrite <- app_assoc. reflexivity.
      * rewrite main_loop_other by assumption.
        pose proof (main_loop_other fuel [] l rest [] El) as E0.
        cbn [app length] in E0. rewrite E0.
        rewrite snoc_app, IH.
        pose proof (IH [l] rest []) as E1. cbn [app length] in E1.
        rewrite E1. reflexivity.
Qed.




(* ------------------------------------------------------------------ *)
(** *** Claims about the parser *)




(** C2, as the code has it: joining [metadata_lines] and [stream_url] with
    newlines gives the lines of the entry, each trimmed of surrounding
    whitespace and without the blank lines before the URL; it is the
    original text of the entry when no blank line precedes the URL and every
    line of the entry is free of surrounding whitespace. *)
Theorem C2_join_reproduces_trimmed_entry (txt : str) (ch : Channel) :
  In ch (parse_m3u txt) ->
  exists pre p aux blanks u post,
    split_nl txt = pre ++ p :: aux ++ blanks ++ u :: post /\
    is_extinf p = true /\
    Forall (fun l => is_aux l = true) aux /\
    Forall (fun l => is_blank l = true) blanks /\
    is_blank u = false /\
    join_nl (metadata_lines ch ++ [stream_url ch])
      = join_nl (map strip (p :: aux ++ [u])) /\
    full_entry ch = join_nl (metadata_lines ch ++ [stream_url ch]) /\
    (blanks = [] ->
     Forall (fun l => strip l = l) (p :: aux ++ [u]) ->
     join_nl (metadata_lines ch ++ [stream_url ch])
       = join_nl (p :: aux ++ blanks ++ [u])).
Proof.
  intros H. apply parse_lines_sound in H.
  destruct H as (pre & p & aux & blanks & u & post & E & Hp & Ha & Hb & Hu & Hn & ->).
  exists pre, p, aux, blanks, u, post.
  assert (J : join_nl (metadata_lines (make_channel (strip p :: map strip aux) (strip u))
                       ++ [stream_url (make_channel (strip p :: map strip aux) (strip u))])
              = join_nl (map strip (p :: aux ++ [u]))).
  { cbn [metadata_lines stream_url make_channel].
    rewrite <- app_comm_cons. cbn [map]. rewrite map_app. reflexivity. }
  repeat split; try assumption.
  - cbn [full_entry metadata_lines stream_url make_channel].
    rewrite join_nl_snoc by discriminate. reflexivity.
  - intros -> Hfix. rewrite J. rewrite map_fixed by assumption. reflexivity.
Qed.

(** The theorem on the entry of [playlist_blank_gap]. *)
Lemma C2_witness :
  In (make_channel [lit "#EXTINF:-1,One"] (lit "http://one"))
     (parse_m3u playlist_blank_gap) /\
  exists pre p aux blanks u post,
    split_nl playlist_blank_gap = pre ++ p :: aux ++ blanks ++ u :: post /\
    is_extinf p = true /\
    Forall (fun l => is_aux l = true) aux /\
    Forall (fun l => is_blank l = true) blanks /\
    is_blank u = false /\
    join_nl (metadata_lines (make_channel [lit "#EXTINF:-1,One"] (lit "http://one"))
             ++ [stream_url (make_channel [lit "#EXTINF:-1,One"] (lit "http://one"))])
      = join_nl (map strip (p :: aux ++ [u])) /\
    full_entry (make_channel [lit "#EXTINF:-1,One"] (lit "http://one"))
      = join_nl (metadata_lines (make_channel [lit "#EXTINF:-1,One"] (lit "http://one"))
                 ++ [stream_url (make_channel [lit "#EXTINF:-1,One"] (lit "http://one"))]) /\
    (blanks = [] ->
     Forall (fun l => strip l = l) (p :: aux ++ [u]) ->
     join_nl (metadata_lines (make_channel [lit "#EXTINF:-1,One"] (lit "http://one"))
              ++ [stream_url (make_channel [lit "#EXTINF:-1,One"] (lit "http://one"))])
       = join_nl (p :: aux ++ blanks ++ [u])).
Proof.
  split.
  - left. reflexivity.
  - apply (C2_join_reproduces_trimmed_entry playlist_blank_gap).
    left. reflexivity.
Defined.

(** C2 fails as stated: for an entry with a blank line between its
    [#EXTINF] line and its URL, the joined text has lost the blank line and
    differs from the original text of the entry (here the whole input). *)
Lemma C2_counterexample :
  exists ch,
    parse_m3u playlist_blank_gap = [ch] /\
    join_nl (metadata_lines ch ++ [stream_url ch]) <> playlist_blank_gap.
Proof.
  exists (make_channel [lit "#EXTINF:-1,One"] (lit "http://one")).
  split; [reflexivity | discriminate].
Qed.




(* ================================================================== *)
(** ** The scanner and the match pass *)

Lemma str_eqb_eq a : forall b, str_eqb a b = true <-> a = b.
Proof.
  induction a as [|x a IH]; intros [|y b]; simpl; split; intros H;
    try reflexivity; try discriminate.
  - apply andb_true_iff in H. destruct H as [H1 H2].
    apply N.eqb_eq in H1. apply IH in H2. congruence.
  - inversion H; subst. rewrite N.eqb_refl. simpl. apply IH. reflexivity.
Qed.

Lemma str_eqb_refl a : str_eqb a a = true.
Proof. apply str_eqb_eq. reflexivity. Qed.

Section ScannerFacts.

Variable ext : str -> element -> result (list element).

(** The scanner never raises: whatever a file does, it is skipped. *)
Lemma find_channel_in_sites_returns tvg sites :
  exists r, find_channel_in_sites ext tvg sites = Return r.
Proof.
  induction sites as [|f rest IH]; simpl.
  - exists None. reflexivity.
  - destruct (search_file ext tvg f) as [[c|]|e].
    + exists (Some c). reflexivity.
    + exact IH.
    + destruct e; exact IH.
Qed.

(** A file whose parse or query raises is skipped. *)
Lemma find_channel_in_sites_skip tvg f rest e :
  search_file ext tvg f = Raise e ->
  find_channel_in_sites ext tvg (f :: rest)
  = find_channel_in_sites ext tvg rest.
Proof. intros H. simpl. rewrite H. destruct e; reflexivity. Qed.

(** When every file raises, nothing is found. *)
Lemma find_channel_in_sites_all_raise tvg sites :
  (forall f, In f sites -> exists e, search_file ext tvg f = Raise e) ->
  find_channel_in_sites ext tvg sites = Return None.
Proof.
  induction sites as [|f rest IH]; intros H; [reflexivity|].
  destruct (H f (or_introl eq_refl)) as [e He].
  rewrite (find_channel_in_sites_skip tvg f rest e He).
  apply IH. intros g Hg. apply H. right. exact Hg.
Qed.

(** The three outcomes of one iteration of the match loop. *)
Lemma match_step_skipped sites st channel :
  no_tvg_id channel = true ->
  match_step ext sites st channel
  = Return {| definitions := definitions st;
              matched_channels := matched_channels st;
              matched_count := matched_count st;
              skipped_count := skipped_count st + 1 |}.
Proof.
  unfold no_tvg_id, match_step. destruct (tvg_id channel) as [id|]; auto.
  intros ->. reflexivity.
Qed.

Lemma match_step_matched sites st channel :
  is_matched ext sites channel = true ->
  exists channel_element,
    match_step ext sites st channel
    = Return {| definitions := definitions st ++ [channel_element];
                matched_channels := matched_channels st ++ [channel];
                matched_count := matched_count st + 1;
                skipped_count := skipped_count st |}.
Proof.
  unfold is_matched, no_tvg_id, found_in, match_step.
  destruct (tvg_id channel) as [id|]; [|discriminate].
  intros H. apply andb_true_iff in H. destruct H as [H1 H2].
  apply negb_true_iff in H1. rewrite H1.
  destruct (find_channel_in_sites ext id sites) as [[c|]|e]; try discriminate.
  exists c. reflexivity.
Qed.

Lemma match_step_removed sites st channel :
  is_removed ext sites channel = true ->
  match_step ext sites st channel = Return st.
Proof.
  unfold is_removed, no_tvg_id, found_in, match_step.
  destruct (tvg_id channel) as [id|]; [|discriminate].
  intros H. apply andb_true_iff in H. destruct H as [H1 H2].
  apply negb_true_iff in H1. rewrite H1.
  destruct (find_channel_in_sites_returns id sites) as [r Hr].
  rewrite Hr in *. destruct r; [discriminate|reflexivity].
Qed.

Lemma classify sites channel :
  (no_tvg_id channel = true /\ is_matched ext sites channel = false
   /\ is_removed ext sites channel = false)
  \/ (no_tvg_id channel = false /\ is_matched ext sites channel = true
      /\ is_removed ext sites channel = false)
  \/ (no_tvg_id channel = false /\ is_matched ext sites channel = false
      /\ is_removed ext sites channel = true).
Proof.
  unfold is_matched, is_removed.
  destruct (no_tvg_id channel), (found_in ext sites channel); simpl; auto.
Qed.

(** The loop from any state: what it adds to each variable. *)
Lemma match_loop_from sites channels : forall st,
  exists st',
    match_loop ext sites channels st = Return st' /\
    matched_channels st'
      = matched_channels st ++ filter (is_matched ext sites) channels /\
    length (definitions st')
      = length (definitions st) + length (filter (is_matched ext sites) channels) /\
    matched_count st'
      = (matched_count st
         + Z.of_nat (length (filter (is_matched ext sites) channels)))%Z /\
    skipped_count st'
      = (skipped_count st + Z.of_nat (length (filter no_tvg_id channels)))%Z /\
    (Z.of_nat (length channels)
     = Z.of_nat (length (filter (is_matched ext sites) channels))
       + Z.of_nat (length (filter no_tvg_id channels))
       + Z.of_nat (length (filter (is_removed ext sites) channels)))%Z.
Proof.
  induction channels as [|ch rest IH]; intros st.
  - exists st. simpl. rewrite app_nil_r.
    repeat split; auto; lia.
  - cbn [match_loop filter].
    destruct (classify sites ch) as [(Hs & Hm & Hr)|[(Hs & Hm & Hr)|(Hs & Hm & Hr)]];
      rewrite Hs, Hm, Hr.
    + rewrite match_step_skipped by assumption.
      destruct (IH {| definitions := definitions st;
                      matched_channels := matched_channels st;
                      matched_count := matched_count st;
                      skipped_count := skipped_count st + 1 |})
        as (st' & E & A & B & C & D & F).
      exists st'. cbn [definitions matched_channels matched_count skipped_count] in *.
      repeat split; auto; cbn [length]; lia.
    + destruct (match_step_matched sites st ch Hm) as [c Hc]. rewrite Hc.
      destruct (IH {| definitions := definitions st ++ [c];
                      matched_channels := matched_channels st ++ [ch];
                      matched_count := matched_count st + 1;
                      skipped_count := skipped_count st |})
        as (st' & E & A & B & C & D & F).
      exists st'. cbn [definitions matched_channels matched_count skipped_count] in *.
      rewrite length_app in B. cbn [length] in *.
      repeat split; auto; try lia.
      rewrite A, <- app_assoc. reflexivity.
    + rewrite match_step_removed by assumption.
      destruct (IH st) as (st' & E & A & B & C & D & F).
      exists st'. repeat split; auto; cbn [length]; lia.
Qed.

End ScannerFacts.

(* ================================================================== *)
(** ** The path tokenizer and compiler on the queries of the scanner *)

Module PathFacts.
Import ElementPath.

Lemma span_spec p s :
  s = fst (span p s) ++ snd (span p s) /\
  Forall (fun c => p c = true) (fst (span p s)).
Proof.
  induction s as [|c s IH]; simpl.
  - split; [reflexivity | constructor].
  - destruct (p c) eqn:E; simpl.
    + destruct (span p s) as [v r]. simpl in *. destruct IH as [IH1 IH2].
      split; [congruence | constructor; assumption].
    + split; [reflexivity | constructor].
Qed.

Lemma until_char_spec q s : forall v r,
  until_char q s = Some (v, r) -> s = v ++ q :: r /\ ~ In q v.
Proof.
  induction s as [|c s IH]; simpl; intros v r H; [discriminate|].
  destruct (N.eqb_spec c q) as [->|Hc].
  - inversion H; subst. split; [reflexivity | intros []].
  - destruct (until_char q s) as [[v' r']|]; [|discriminate].
    inversion H; subst. destruct (IH v' r eq_refl) as [-> Hn].
    split; [reflexivity|]. intros [E|E]; [congruence | contradiction].
Qed.

Lemma until_char_app q v r :
  ~ In q v -> until_char q (v ++ q :: r) = Some (v, r).
Proof.
  induction v as [|c v IH]; simpl; intros H.
  - rewrite N.eqb_refl. reflexivity.
  - destruct (N.eqb_spec c q) as [->|Hc]; [exfalso; auto|].
    rewrite IH by auto. reflexivity.
Qed.

Lemma plain_name_spec s v r :
  match span name_char s with
  | ((_ :: _) as v, r) => Some (v, r)
  | _ => None
  end = Some (v, r) ->
  s = v ++ r /\ v <> [].
Proof.
  pose proof (span_spec name_char s) as [E _].
  destruct (span name_char s) as [[|c v'] r']; simpl in *; intros H;
    [discriminate|].
  inversion H; subst. split; [reflexivity | discriminate].
Qed.

Lemma match_name_spec s v r :
  match_name s = Some (v, r) -> s = v ++ r /\ v <> [].
Proof.
  unfold match_name. destruct s as [|c s1]; [discriminate|].
  destruct (N.eqb_spec c LBRACE) as [->|Hc]; [|apply plain_name_spec].
  destruct (until_char RBRACE s1) as [[[|b body] r1]|] eqn:U;
    try apply plain_name_spec.
  pose proof (span_spec name_char r1) as [E _].
  destruct (span name_char r1) as [[|d v'] r'] eqn:Sp;
    try apply plain_name_spec.
  intros H. inversion H; subst.
  apply until_char_spec in U. destruct U as [-> _].
  split; [|discriminate]. cbn [fst snd]. list_assoc.
Qed.

Lemma match_rest_spec s t r :
  match_rest s = Some (t, r) -> consumes s t r.
Proof.
  unfold match_rest. destruct (match_name s) as [[v r']|] eqn:M.
  - intros H. inversion H; subst.
    apply match_name_spec in M. destruct M as [-> Hv].
    exists v. repeat split; auto.
    + simpl. intros _ ->. congruence.
    + simpl. discriminate.
  - pose proof (span_spec isspace s) as [E F].
    destruct (span isspace s) as [[|c w] r'] eqn:Sp; [discriminate|].
    simpl in E, F. intros H. injection H as <- <-.
    exists (c :: w). repeat split; auto; try discriminate.
Qed.

Ltac consumed w :=
  exists w;
  split; [discriminate|];
  split; [reflexivity|];
  split; [cbn [fst]; intros; discriminate
         | cbn [fst]; intros; try congruence; try discriminate].

Lemma one_or_two_spec c s1 t r :
  c <> RBRACKET ->
  one_or_two c s1 = Some (t, r) -> consumes (c :: s1) t r.
Proof.
  intros Hc. unfold one_or_two.
  assert (Hb : str_eqb [c] [RBRACKET] = false).
  { simpl. destruct (N.eqb_spec c RBRACKET); [contradiction|reflexivity]. }
  assert (Hb2 : str_eqb [c; c] [RBRACKET] = false).
  { simpl. destruct (N.eqb_spec c RBRACKET); [contradiction|reflexivity]. }
  destruct s1 as [|d s2].
  - intros H. injection H as <- <-. consumed [c].
  - destruct (N.eqb_spec d c) as [->|Hd]; intros H; injection H as <- <-.
    + consumed [c; c].
    + consumed [c].
Qed.

Lemma quoted_token_spec q s1 t r :
  q <> RBRACKET ->
  quoted_token q (q :: s1) s1 = Some (t, r) -> consumes (q :: s1) t r.
Proof.
  intros Hq. unfold quoted_token.
  destruct (until_char q s1) as [[v r']|] eqn:U; [|apply match_rest_spec].
  intros H. inversion H; subst.
  apply until_char_spec in U. destruct U as [-> _].
  exists (q :: v ++ [q]). repeat split; try discriminate.
  - simpl. rewrite <- app_assoc. reflexivity.
  - cbn [fst str_eqb].
    destruct (N.eqb_spec q RBRACKET); [contradiction|discriminate].
Qed.

Lemma next_match_spec s t r :
  next_match s = Some (t, r) -> consumes s t r.
Proof.
  unfold next_match. destruct s as [|c s1]; [discriminate|].
  destruct (N.eqb_spec c SQUOTE) as [->|H1];
    [apply quoted_token_spec; discriminate|].
  destruct (N.eqb_spec c DQUOTE) as [->|H2];
    [apply quoted_token_spec; discriminate|].
  destruct (N.eqb_spec c COLON) as [->|H3];
    [apply one_or_two_spec; discriminate|].
  destruct (N.eqb_spec c SLASH) as [->|H4];
    [apply one_or_two_spec; discriminate|].
  destruct (N.eqb_spec c DOT) as [->|H5];
    [apply one_or_two_spec; discriminate|].
  destruct (N.eqb_spec c LPAREN) as [->|H6].
  { destruct s1 as [|d s2].
    - intros H; injection H as <- <-. consumed [LPAREN].
    - destruct (N.eqb_spec d RPAREN) as [->|Hd]; intros H; injection H as <- <-.
      + consumed [LPAREN; RPAREN].
      + consumed [LPAREN]. }
  destruct (N.eqb_spec c BANG) as [->|H7].
  { destruct s1 as [|d s2]; [discriminate|].
    destruct (N.eqb_spec d EQUALS) as [->|Hd]; [|discriminate].
    intros H; injection H as <- <-. consumed [BANG; EQUALS]. }
  destruct ((c =? STAR) || (c =? LBRACKET) || (c =? RBRACKET)
            || (c =? RPAREN) || (c =? AT) || (c =? EQUALS))%N eqn:E;
    [|apply match_rest_spec].
  intros H; inversion H; subst.
  exists [c]; repeat split; try discriminate.
  cbn [fst str_eqb hd]. intros Hb. apply andb_true_iff in Hb.
  destruct Hb as [Hb _]. apply N.eqb_eq in Hb. exact Hb.
Qed.

Lemma next_match_shorter s t r :
  next_match s = Some (t, r) -> length r < length s.
Proof.
  intros H. apply next_match_spec in H.
  destruct H as (w & Hw & -> & _). rewrite length_app.
  destruct w; [congruence | simpl; lia].
Qed.

Lemma findall_loop_fuel f1 : forall f2 s,
  length s <= f1 -> length s <= f2 ->
  findall_loop f1 s = findall_loop f2 s.
Proof.
  induction f1 as [|f1 IH]; intros f2 s H1 H2.
  - destruct s; [|simpl in H1; lia]. destruct f2; reflexivity.
  - destruct s as [|c s1]; [destruct f2; reflexivity|].
    destruct f2 as [|f2]; [simpl in H2; lia|].
    cbn [findall_loop]. simpl in H1, H2.
    destruct (next_match (c :: s1)) as [[t r]|] eqn:M.
    + apply next_match_shorter in M. simpl in M.
      f_equal. apply IH; lia.
    + apply IH; lia.
Qed.

(** The tokenizer, one match at a time. *)
Lemma re_findall_eq s :
  re_findall s
  = match s with
    | [] => []
    | _ :: s1 =>
        match next_match s with
        | Some (t, r) => t :: re_findall r
        | None => re_findall s1
        end
    end.
Proof.
  unfold re_findall. destruct s as [|c s1]; [reflexivity|].
  cbn [length findall_loop].
  destruct (next_match (c :: s1)) as [[t r]|] eqn:M.
  - apply next_match_shorter in M. simpl in M.
    f_equal. apply findall_loop_fuel; lia.
  - reflexivity.
Qed.

Lemma predicate_loop_rest toks : forall sig pred sig' pred' rest,
  predicate_loop toks sig pred = PredClosed sig' pred' rest ->
  length rest < length toks.
Proof.
  induction toks as [|t toks IH]; intros sig pred sig' pred' rest;
    cbn [predicate_loop]; [discriminate|].
  destruct (tokenizer_yield t) as [[ty tg]|e]; [|discriminate].
  destruct (str_eqb ty [RBRACKET]).
  { intros H. injection H as _ _ <-. simpl. lia. }
  destruct (negb (truthy ty) && negb (truthy tg));
    [intros H; apply IH in H; simpl; lia|].
  destruct ty as [|c ty'];
    [intros H; apply IH in H; simpl; lia|].
  destruct ((c =? SQUOTE) || (c =? DQUOTE))%N;
    intros H; apply IH in H; simpl; lia.
Qed.

Lemma pull_shorter toks t rest :
  pull toks = Got t rest -> length rest < length toks.
Proof.
  destruct toks as [|t0 toks]; [discriminate|]. simpl.
  destruct (tokenizer_yield t0); [|discriminate].
  intros H. injection H as _ <-. lia.
Qed.

Lemma prepare_shorter t rest s rest1 :
  prepare t rest = Prepared s rest1 -> length rest1 <= length rest.
Proof.
  unfold prepare.
  destruct (str_eqb (fst t) []).
  { unfold prepare_child. destruct (is_wildcard_tag (snd t)); [discriminate|].
    intros H. injection H as _ <-. lia. }
  destruct (str_eqb (fst t) [STAR]); [intros H; injection H as _ <-; lia|].
  destruct (str_eqb (fst t) [DOT]); [intros H; injection H as _ <-; lia|].
  destruct (str_eqb (fst t) [DOT; DOT]); [discriminate|].
  destruct (str_eqb (fst t) [SLASH; SLASH]).
  { unfold prepare_descendant. destruct (pull rest) as [|e|t1 r1] eqn:P.
    - intros H. injection H as _ <-. simpl. lia.
    - discriminate.
    - apply pull_shorter in P.
      destruct (str_eqb (fst t1) [STAR]); [intros H; injection H as _ <-; lia|].
      destruct (truthy (fst t1)); [discriminate|].
      destruct (is_wildcard_tag (snd t1)); [discriminate|].
      intros H. injection H as _ <-. lia. }
  destruct (str_eqb (fst t) [LBRACKET]); [|discriminate].
  unfold prepare_predicate.
  destruct (predicate_loop rest [] []) as [|e|sig pr r1] eqn:P.
  - intros H. injection H as _ <-. simpl. lia.
  - discriminate.
  - apply predicate_loop_rest in P.
    destruct (str_eqb sig (lit "@-")); [intros H; injection H as _ <-; lia|].
    destruct (str_eqb sig (lit "@-='")); [intros H; injection H as _ <-; lia|].
    destruct (str_eqb sig (lit "@-!='")); [intros H; injection H as _ <-; lia|].
    destruct (existsb (str_eqb sig) other_signatures); discriminate.
Qed.

(** The compile loop takes at least one token a round, so the rounds
    [compile] allows (one per token) are enough. *)
Lemma compile_loop_fuel f1 : forall f2 t rest sel,
  length rest < f1 -> length rest < f2 ->
  compile_loop f1 t rest sel = compile_loop f2 t rest sel.
Proof.
  induction f1 as [|f1 IH]; intros f2 t rest sel H1 H2; [lia|].
  destruct f2 as [|f2]; [lia|].
  cbn [compile_loop].
  destruct (prepare t rest) as [s rest1|e|] eqn:P; try reflexivity.
  apply prepare_shorter in P.
  destruct (pull rest1) as [|e|t1 rest2] eqn:P1; try reflexivity.
  apply pull_shorter in P1.
  destruct (str_eqb (fst t1) [SLASH]).
  - destruct (pull rest2) as [|e|t2 rest3] eqn:P2; try reflexivity.
    apply pull_shorter in P2. apply IH; lia.
  - apply IH; lia.
Qed.

Lemma until_char_some q s :
  In q s -> exists v r, until_char q s = Some (v, r).
Proof.
  induction s as [|c s IH]; simpl; intros H; [contradiction|].
  destruct (N.eqb_spec c q) as [->|Hc]; [eauto|].
  destruct H as [H|H]; [congruence|].
  destruct (IH H) as (v & r & ->). eauto.
Qed.

Lemma tokens_query_head tail :
  re_findall (lit ".//channel[@xmltv_id=" ++ tail)
  = query_head ++ re_findall tail.
Proof.
  let p := eval vm_compute in (lit ".//channel[@xmltv_id=") in
  change (lit ".//channel[@xmltv_id=") with p.
  cbn [app].
  do 7 (rewrite re_findall_eq; cbn -[re_findall]).
  reflexivity.
Qed.

Lemma tokens_quoted a tail :
  ~ In SQUOTE a ->
  re_findall (SQUOTE :: a ++ SQUOTE :: tail)
  = (SQUOTE :: a ++ [SQUOTE], []) :: re_findall tail.
Proof.
  intros H. rewrite re_findall_eq.
  cbn [next_match]. rewrite N.eqb_refl. unfold quoted_token.
  rewrite until_char_app by assumption. reflexivity.
Qed.

Lemma channel_query_split id :
  channel_query id
  = lit ".//channel[@xmltv_id=" ++ SQUOTE :: id ++ [SQUOTE; RBRACKET].
Proof.
  unfold channel_query.
  change (lit ".//channel[@xmltv_id='")
    with (lit ".//channel[@xmltv_id=" ++ [SQUOTE]).
  rewrite <- app_assoc. reflexivity.
Qed.

Lemma removelast_snoc {A : Type} (l : list A) x : removelast (l ++ [x]) = l.
Proof.
  induction l as [|y l IH]; [reflexivity|].
  simpl. rewrite IH. destruct (l ++ [x]) eqn:E; [|reflexivity].
  destruct l; discriminate.
Qed.

(** An identifier free of single quotes gives the intended query: the
    [channel] descendants whose [xmltv_id] is the identifier. *)
Lemma compile_quote_free id :
  ~ In SQUOTE id ->
  compile (channel_query id)
  = Selector [Self; Descendant (lit "channel"); AttrEq XMLTV_ID id].
Proof.
  intros H. unfold compile.
  rewrite channel_query_split at 1.
  change (startswith (lit ".//channel[@xmltv_id=" ++ SQUOTE :: id ++ [SQUOTE; RBRACKET])
            [SLASH]) with false.
  cbv iota.
  rewrite channel_query_split, tokens_query_head, tokens_quoted by assumption.
  replace (re_findall [RBRACKET]) with [(([RBRACKET], []) : rawtok)]
    by reflexivity.
  cbn -[removelast].
  rewrite removelast_snoc. reflexivity.
Qed.

Lemma predicate_loop_mono toks : forall sig pred,
  match predicate_loop toks sig pred with
  | PredClosed sig' _ _ => exists x, sig' = sig ++ x
  | _ => True
  end.
Proof.
  induction toks as [|t toks IH]; intros sig pred; cbn [predicate_loop]; auto.
  destruct (tokenizer_yield t) as [[ty tg]|e]; auto.
  destruct (str_eqb ty [RBRACKET]).
  { exists []. rewrite app_nil_r. reflexivity. }
  destruct (negb (truthy ty) && negb (truthy tg)); [apply IH|].
  destruct ty as [|c ty'].
  - specialize (IH (sig ++ lit "-") (pred ++ [tg])).
    destruct (predicate_loop toks _ _); auto.
    destruct IH as [x ->]. rewrite <- app_assoc. eauto.
  - destruct ((c =? SQUOTE) || (c =? DQUOTE))%N.
    + specialize (IH (sig ++ [SQUOTE]) (pred ++ [removelast (tl (c :: ty'))])).
      destruct (predicate_loop toks _ _); auto.
      destruct IH as [x ->]. rewrite <- app_assoc. eauto.
    + specialize (IH (sig ++ c :: ty') (pred ++ [tg])).
      destruct (predicate_loop toks _ _); auto.
      destruct IH as [x ->]. rewrite <- app_assoc. eauto.
Qed.

(** A token that is neither whitespace nor the closing bracket adds to the
    signature. *)
Lemma predicate_loop_token ty tg toks sig pred :
  str_eqb ty [RBRACKET] = false ->
  negb (truthy ty) && negb (truthy tg) = false ->
  strictly_extends sig (predicate_loop ((ty, tg) :: toks) sig pred).
Proof.
  intros Hb Hw. cbn [predicate_loop].
  destruct (tokenizer_yield (ty, tg)) as [[ty1 tg1]|e] eqn:Y; [|exact I].
  assert (E : (ty1, tg1) = (ty, tg)).
  { unfold tokenizer_yield in Y. cbn [snd] in Y.
    destruct tg as [|c tg']; [congruence|].
    destruct (negb (c =? LBRACE)%N && _); [discriminate | congruence]. }
  injection E as -> ->. rewrite Hb, Hw.
  destruct ty as [|c ty'].
  - pose proof (predicate_loop_mono toks (sig ++ lit "-") (pred ++ [tg])) as M.
    destruct (predicate_loop toks _ _); cbn; auto.
    destruct M as [x ->]. exists (lit "-" ++ x).
    split; [discriminate | rewrite app_assoc; reflexivity].
  - destruct ((c =? SQUOTE) || (c =? DQUOTE))%N.
    + pose proof (predicate_loop_mono toks (sig ++ [SQUOTE])
                    (pred ++ [removelast (tl (c :: ty'))])) as M.
      destruct (predicate_loop toks _ _); cbn; auto.
      destruct M as [x ->]. exists ([SQUOTE] ++ x).
      split; [discriminate | rewrite app_assoc; reflexivity].
    + pose proof (predicate_loop_mono toks (sig ++ c :: ty') (pred ++ [tg])) as M.
      destruct (predicate_loop toks _ _); cbn; auto.
      destruct M as [x ->]. exists ((c :: ty') ++ x).
      split; [discriminate | rewrite app_assoc; reflexivity].
Qed.

(** Whitespace consumed in front of a text that ends in a quote leaves a
    text of the same shape. *)
Lemma whitespace_prefix w : forall r rest,
  Forall (fun c => isspace c = true) w ->
  r ++ [SQUOTE; RBRACKET] = w ++ rest ->
  exists r', rest = r' ++ [SQUOTE; RBRACKET] /\ r = w ++ r'.
Proof.
  induction w as [|x w IH]; intros r rest Hw E.
  - exists r. split; [symmetry; exact E | reflexivity].
  - inversion Hw as [|? ? Hx Hw']; subst.
    destruct r as [|c r].
    + simpl in E. injection E as <- E. discriminate Hx.
    + simpl in E. injection E as <- E.
      destruct (IH r rest Hw' E) as (r' & -> & ->). eauto.
Qed.

(** After the quoted value, whatever an identifier free of closing brackets
    leaves in front of the final quote and bracket ends up in the signature
    of the predicate. *)
Lemma predicate_loop_tail n : forall r sig pred,
  length r <= n ->
  ~ In RBRACKET r ->
  strictly_extends sig
    (predicate_loop (re_findall (r ++ [SQUOTE; RBRACKET])) sig pred).
Proof.
  induction n as [|n IH]; intros r sig pred Hn Hr.
  - destruct r; [|simpl in Hn; lia]. cbn. eexists. split; [|reflexivity].
    discriminate.
  - rewrite re_findall_eq.
    destruct (r ++ [SQUOTE; RBRACKET]) as [|c s1] eqn:Es.
    { destruct r; discriminate. }
    assert (Hhd : c <> RBRACKET).
    { destruct r as [|c' r']; simpl in Es; injection Es as <- _.
      - discriminate.
      - intros ->. apply Hr. left. reflexivity. }
    destruct (next_match (c :: s1)) as [[[ty tg] rest]|] eqn:M.
    + apply next_match_spec in M.
      destruct M as (w & Hw & E & Hws & Hbr). cbn [fst snd hd] in *.
      assert (Hb : str_eqb ty [RBRACKET] = false).
      { destruct (str_eqb ty [RBRACKET]); [|reflexivity].
        exfalso. apply Hhd. apply Hbr. reflexivity. }
      destruct (negb (truthy ty) && negb (truthy tg)) eqn:Ews.
      * assert (ty = [] /\ tg = []) as [-> ->].
        { destruct ty, tg; try discriminate. auto. }
        rewrite <- Es in E.
        destruct (whitespace_prefix w r rest (Hws eq_refl eq_refl) E)
          as (r' & -> & ->).
        cbn [predicate_loop tokenizer_yield snd str_eqb truthy negb andb].
        apply IH.
        -- rewrite length_app in Hn. destruct w; [congruence|].
           simpl in Hn. lia.
        -- intros Hin. apply Hr. apply in_or_app. right. exact Hin.
      * apply predicate_loop_token; assumption.
    + destruct r as [|c' r'].
      * simpl in Es. injection Es as <- <-. discriminate M.
      * simpl in Es. injection Es as <- <-.
        apply IH; [simpl in Hn; lia|].
        intros Hin. apply Hr. right. exact Hin.
Qed.

(** The first predicate of the query, when the text after the quoted value
    is not just the closing bracket: no selector is built. *)
Lemma prepare_predicate_broken a toks :
  (forall sig pred, strictly_extends sig (predicate_loop toks sig pred)) ->
  (exists e,
     prepare_predicate
       ((lit "@", []) :: ([], lit "xmltv_id") :: (lit "=", [])
          :: (SQUOTE :: a ++ [SQUOTE], []) :: toks) = PrepRaise e)
  \/ prepare_predicate
       ((lit "@", []) :: ([], lit "xmltv_id") :: (lit "=", [])
          :: (SQUOTE :: a ++ [SQUOTE], []) :: toks) = Prepared NoSelector [].
Proof.
  intros H. unfold prepare_predicate.
  cbn -[removelast].
  specialize (H (lit "@-='")
                [[]; lit "xmltv_id"; []; removelast (a ++ [SQUOTE])]).
  change [64%N; 45%N; 61%N; SQUOTE] with (lit "@-='").
  change [120%N; 109%N; 108%N; 116%N; 118%N; 95%N; 105%N; 100%N]
    with (lit "xmltv_id").
  destruct (predicate_loop toks _ _) as [|e|sig' pr rest]; eauto.
  destruct H as (x & Hx & ->). destruct x as [|c x]; [congruence|].
  left. exists SyntaxError. reflexivity.
Qed.

Lemma last_two {A : Type} (l : list A) x y d : last (l ++ [x; y]) d = y.
Proof.
  change (l ++ [x; y]) with (l ++ [x] ++ [y]). rewrite app_assoc.
  apply last_last.
Qed.

Lemma compile_loop_S f t rest sel :
  compile_loop (S f) t rest sel
  = match prepare t rest with
    | PrepRaise e => Raises e
    | PrepBeyond => Unmodelled
    | Prepared s rest1 =>
        match pull rest1 with
        | Stop => Selector (sel ++ [s])
        | Fails e => Raises e
        | Got t1 rest2 =>
            if str_eqb (fst t1) [SLASH] then
              match pull rest2 with
              | Stop => Selector (sel ++ [s])
              | Fails e => Raises e
              | Got t2 rest3 => compile_loop f t2 rest3 (sel ++ [s])
              end
            else compile_loop f t1 rest2 (sel ++ [s])
        end
    end.
Proof. reflexivity. Qed.

(** An identifier with a single quote and no closing bracket: the query is
    rejected, whatever the document. *)
Lemma findall_quote_raises ext root id :
  In SQUOTE id -> ~ In RBRACKET id ->
  exists e, findall ext root (channel_query id) = Raise e.
Proof.
  intros Hq Hb.
  destruct (until_char_some SQUOTE id Hq) as (a & r & U).
  apply until_char_spec in U. destruct U as [-> Ha].
  assert (Hr : ~ In RBRACKET r).
  { intros Hin. apply Hb. apply in_or_app. right. right. exact Hin. }
  unfold findall. rewrite channel_query_split.
  replace (last (lit ".//channel[@xmltv_id=" ++ SQUOTE :: (a ++ SQUOTE :: r)
                  ++ [SQUOTE; RBRACKET]) 0%N) with RBRACKET.
  2:{ symmetry.
      change (lit ".//channel[@xmltv_id=" ++ SQUOTE :: (a ++ SQUOTE :: r)
                ++ [SQUOTE; RBRACKET])
        with ((lit ".//channel[@xmltv_id=" ++ SQUOTE :: (a ++ SQUOTE :: r))
                ++ [SQUOTE; RBRACKET]) at 1.
      apply last_two. }
  change (RBRACKET =? SLASH)%N with false. cbv iota.
  unfold compile.
  change (startswith (lit ".//channel[@xmltv_id=" ++ SQUOTE :: (a ++ SQUOTE :: r)
                        ++ [SQUOTE; RBRACKET]) [SLASH]) with false.
  cbv iota.
  rewrite tokens_query_head.
  rewrite <- app_assoc. rewrite <- app_comm_cons.
  rewrite tokens_quoted by assumption.
  pose proof (prepare_predicate_broken a
                (re_findall (r ++ [SQUOTE; RBRACKET]))
                (fun sig pred => predicate_loop_tail (length r) r sig pred
                                   (le_n _) Hr)) as P.
  unfold query_head.
  cbn -[compile_loop prepare_predicate re_findall].
  do 3 (rewrite compile_loop_S;
        cbn -[compile_loop prepare_predicate re_findall]).
  match goal with
  | |- context [prepare_predicate ?x] =>
      assert (P' : (exists e, prepare_predicate x = PrepRaise e)
                   \/ prepare_predicate x = Prepared NoSelector [])
        by exact P;
      destruct (prepare_predicate x)
  end.
  - destruct P' as [[e E]|E]; [discriminate|].
    injection E as -> ->. exists TypeError. reflexivity.
  - eauto.
  - destruct P' as [[e E]|E]; discriminate.
Qed.

End PathFacts.

(* ------------------------------------------------------------------ *)
(** *** Claims about the scanner and the match pass *)

Lemma filter_attr_eq key value res e :
  In e (filter (fun e => match elem_get e key with
                         | Some v => str_eqb v value
                         | None => false
                         end) res) ->
  elem_get e key = Some value.
Proof.
  intros H. apply filter_In in H. destruct H as [_ H].
  destruct (elem_get e key) as [v|]; [|discriminate].
  apply str_eqb_eq in H. congruence.
Qed.

(** For an identifier without a single quote the query is the intended
    one, so a definition the scanner returns carries that identifier. *)
Lemma find_channel_quote_free ext id sites c :
  ~ In SQUOTE id ->
  find_channel_in_sites ext id sites = Return (Some c) ->
  elem_get c XMLTV_ID = Some id.
Proof.
  intros Hq. induction sites as [|f rest IH]; simpl; [discriminate|].
  destruct (search_file ext id f) as [[c'|]|e] eqn:S.
  - intros H. injection H as ->.
    destruct f as [e|root]; [discriminate|]. simpl in S.
    unfold ElementPath.findall in S.
    assert (L : last (channel_query id) 0%N = ElementPath.RBRACKET).
    { unfold channel_query. rewrite app_assoc.
      apply PathFacts.last_two. }
    rewrite L in S. change (ElementPath.RBRACKET =? ElementPath.SLASH)%N
      with false in S. cbv iota in S.
    rewrite PathFacts.compile_quote_free in S by assumption.
    cbn [ElementPath.run_selector ElementPath.select flat_map app] in S.
    rewrite app_nil_r in S.
    match type of S with
    | match ?l with _ => _ end = _ => destruct l as [|c0 l0] eqn:F
    end; [discriminate|].
    injection S as ->.
    apply filter_attr_eq with (res := filter (ElementPath.tag_matches (lit "channel"))
                                        (descendants root)).
    rewrite F. left. reflexivity.
  - exact IH.
  - destruct e; exact IH.
Qed.

(** As long as no identifier of the playlist holds a single quote, every
    matched channel is paired with a definition that carries its
    identifier. *)
Lemma match_loop_identifiers ext sites channels : forall st st',
  (forall ch id, In ch channels -> tvg_id ch = Some id -> ~ In SQUOTE id) ->
  Forall2 (fun ch d => elem_get d XMLTV_ID = tvg_id ch)
    (matched_channels st) (definitions st) ->
  match_loop ext sites channels st = Return st' ->
  Forall2 (fun ch d => elem_get d XMLTV_ID = tvg_id ch)
    (matched_channels st') (definitions st').
Proof.
  induction channels as [|ch rest IH]; intros st st' Hq Hinv H.
  - injection H as <-. exact Hinv.
  - cbn [match_loop] in H.
    destruct (match_step ext sites st ch) as [st1|e] eqn:S; [|discriminate].
    apply (IH st1 st'); [intros c i Hc; apply Hq; right; exact Hc | | exact H].
    unfold match_step in S.
    destruct (tvg_id ch) as [id|] eqn:T;
      [|injection S as <-; exact Hinv].
    destruct (negb (truthy id)); [injection S as <-; exact Hinv|].
    destruct (find_channel_in_sites ext id sites) as [[c|]|e] eqn:F;
      [|injection S as <-; exact Hinv|discriminate].
    injection S as <-. cbn [matched_channels definitions].
    apply Forall2_app; [exact Hinv|].
    constructor; [|constructor].
    rewrite T. apply (find_channel_quote_free ext id sites c); [|exact F].
    apply (Hq ch id); [left; reflexivity | exact T].
Qed.

(** C4: the match pass visits the entries in playlist order; an entry
    without identifier only adds one to [skipped_count], an entry whose
    identifier is found is appended to [matched_channels] (with its
    definition, and one added to [matched_count]), any other entry changes
    nothing, so that it is counted as removed; the matched channels are the
    matched entries of the input in input order, and the three counts add up
    to the number of entries. *)
Theorem C4_match_is_a_stable_partition
  (ext : str -> element -> result (list element))
  (sites : catalog) (channels : list Channel) :
  (forall st ch, no_tvg_id ch = true ->
     match_step ext sites st ch
     = Return {| definitions := definitions st;
                 matched_channels := matched_channels st;
                 matched_count := matched_count st;
                 skipped_count := skipped_count st + 1 |}) /\
  (forall st ch, is_matched ext sites ch = true ->
     exists channel_element,
       match_step ext sites st ch
       = Return {| definitions := definitions st ++ [channel_element];
                   matched_channels := matched_channels st ++ [ch];
                   matched_count := matched_count st + 1;
                   skipped_count := skipped_count st |}) /\
  (forall st ch, is_removed ext sites ch = true ->
     match_step ext sites st ch = Return st) /\
  exists st,
    match_loop ext sites channels match_init = Return st /\
    matched_channels st = filter (is_matched ext sites) channels /\
    matched_count st = Z.of_nat (length (matched_channels st)) /\
    skipped_count st = Z.of_nat (length (filter no_tvg_id channels)) /\
    removed_count (Z.of_nat (length channels)) st
      = Z.of_nat (length (filter (is_removed ext sites) channels)) /\
    (matched_count st + skipped_count st
       + removed_count (Z.of_nat (length channels)) st
     = Z.of_nat (length channels))%Z.
Proof.
  split; [intros; apply match_step_skipped; assumption|].
  split; [intros; apply match_step_matched; assumption|].
  split; [intros; apply match_step_removed; assumption|].
  destruct (match_loop_from ext sites channels match_init)
    as (st & E & A & B & C & D & F).
  exists st. cbn [match_init definitions matched_channels matched_count
                  skipped_count app] in *.
  unfold removed_count. rewrite A.
  repeat split; auto; lia.
Qed.

(** The example of the specification: one identifier in the catalog, one
    absent from it, one entry without identifier. *)
Example match_three_channels :
  exists st,
    match_loop no_ext sample_catalog three_channels match_init = Return st /\
    matched_channels st = firstn 1 three_channels /\
    definitions st = [channel_def (lit "abc") (lit "en")] /\
    matched_count st = 1%Z /\
    skipped_count st = 1%Z /\
    removed_count (Z.of_nat (length three_channels)) st = 1%Z.
Proof. eexists. repeat split. Qed.

(** C7 on the failing input: the identifier of [injected_playlist] closes
    the quoted value of the query and adds a predicate of its own; the
    scanner then returns the definition whose identifier is [a], and the
    match pass pairs the channel with it although the identifiers differ. *)
Theorem C7_injected_identifier_matches_other_definition
  (ext : str -> element -> result (list element)) :
  exists ch d st,
    parse_m3u injected_playlist = [ch] /\
    tvg_id ch = Some injected_id /\
    match_loop ext sample_catalog [ch] match_init = Return st /\
    matched_channels st = [ch] /\
    definitions st = [d] /\
    elem_get d XMLTV_ID = Some (lit "a") /\
    Some (lit "a") <> tvg_id ch.
Proof.
  eexists. eexists. eexists.
  split; [vm_compute; reflexivity|].
  split; [reflexivity|].
  split; [vm_compute; reflexivity|].
  split; [reflexivity|].
  split; [reflexivity|].
  split; [reflexivity|].
  discriminate.
Qed.

(** C9, as the code has it: the scanner returns for every identifier and
    every catalog and never raises, a file whose parse or query raises being
    skipped; and for an identifier with a single quote and no closing
    bracket the query is rejected on every document, so that no definition
    is returned, whatever the catalog holds. *)
Theorem C9_scanner_never_raises
  (ext : str -> element -> result (list element))
  (tvg : str) (sites : catalog) :
  (exists r, find_channel_in_sites ext tvg sites = Return r) /\
  (forall f rest e,
     search_file ext tvg f = Raise e ->
     find_channel_in_sites ext tvg (f :: rest)
     = find_channel_in_sites ext tvg rest) /\
  (In SQUOTE tvg -> ~ In ElementPath.RBRACKET tvg ->
   (forall root, exists e, search_file ext tvg (Document root) = Raise e) /\
   find_channel_in_sites ext tvg sites = Return None).
Proof.
  split; [apply find_channel_in_sites_returns|].
  split; [intros; eapply find_channel_in_sites_skip; eassumption|].
  intros Hq Hb.
  assert (R : forall f, exists e, search_file ext tvg f = Raise e).
  { intros [e|root]; simpl; [eauto|].
    destruct (PathFacts.findall_quote_raises ext root tvg Hq Hb) as [e ->].
    eauto. }
  split; [intros; apply R|].
  apply find_channel_in_sites_all_raise. intros f _. apply R.
Qed.

(** The theorem on the identifier [o'brien], which the sample catalog
    defines: no definition is returned. *)
Lemma C9_witness :
  In SQUOTE (lit "o'brien") /\
  ~ In ElementPath.RBRACKET (lit "o'brien") /\
  In (channel_def (lit "o'brien") (lit "en"))
     (flat_map (fun f => match f with
                         | Document root => descendants root
                         | Unparsable _ => []
                         end) sample_catalog) /\
  find_channel_in_sites no_ext (lit "o'brien") sample_catalog = Return None.
Proof.
  assert (Hq : In SQUOTE (lit "o'brien")) by (right; left; reflexivity).
  assert (Hb : ~ In ElementPath.RBRACKET (lit "o'brien")).
  { cbv. intros H. repeat (destruct H as [H|H]; [discriminate H|]). exact H. }
  split; [exact Hq|]. split; [exact Hb|].
  split; [right; left; reflexivity|].
  exact (proj2 (proj2 (proj2 (C9_scanner_never_raises no_ext (lit "o'brien")
                                sample_catalog)) Hq Hb)).
Defined.

(** C9 fails as stated: this identifier contains a single quote, yet the
    interpolated text is a well-formed path with two predicates; the query
    does not fail and the scanner returns a definition. *)
Lemma C9_counterexample :
  In SQUOTE injected_id /\
  ElementPath.compile (channel_query injected_id)
  = ElementPath.Selector
      [ElementPath.Self; ElementPath.Descendant (lit "channel");
       ElementPath.AttrEq XMLTV_ID (lit "a");
       ElementPath.AttrEq (lit "lang") (lit "en")] /\
  find_channel_in_sites no_ext injected_id sample_catalog
  = Return (Some (channel_def (lit "a") (lit "en"))).
Proof.
  split; [right; left; reflexivity|].
  split; reflexivity.
Qed.

(* ================================================================== *)
(** ** The cache, the guide and the run *)

Lemma Qgtb_true a b : Qgtb a b = true <-> (b < a)%Q.
Proof.
  unfold Qgtb. rewrite negb_true_iff. split; intros H.
  - apply Qnot_le_lt. intros L. apply Qle_bool_iff in L. congruence.
  - destruct (Qle_bool a b) eqn:E; [|reflexivity].
    apply Qle_bool_iff in E. exfalso. apply (Qlt_not_le _ _ H). exact E.
Qed.

Lemma Qgtb_false a b : Qgtb a b = false <-> (a <= b)%Q.
Proof.
  unfold Qgtb. rewrite negb_false_iff. apply Qle_bool_iff.
Qed.

Lemma load_fresh now timestamp matched root :
  (now - timestamp <= CACHE_MAX_AGE)%Q ->
  load_channel_cache now (Some (CacheJson timestamp matched (XmlOf root)))
  = Return (Some {| cached_channels := matched; cached_root := root |}).
Proof.
  intros H. apply Qgtb_false in H. simpl. rewrite H. reflexivity.
Qed.

Lemma load_stale now timestamp matched xml :
  (CACHE_MAX_AGE < now - timestamp)%Q ->
  load_channel_cache now (Some (CacheJson timestamp matched xml)) = Return None.
Proof.
  intros H. apply Qgtb_true in H. simpl. rewrite H. reflexivity.
Qed.

(** C5: [load_channel_cache] never raises; it returns the persisted record
    only when the file exists, is read and rebuilt without error and is at
    most [CACHE_MAX_AGE] old; a record saved at [T] is accepted at
    [T + CACHE_MAX_AGE - 1] and is a miss at [T + CACHE_MAX_AGE + 1]; a
    missing file and every error while reading or rebuilding are misses. *)
Theorem C5_cache_load_is_gated_by_age (now : Q) (file : option cache_content) :
  (exists r, load_channel_cache now file = Return r) /\
  (forall c, load_channel_cache now file = Return (Some c) ->
     exists timestamp,
       file = Some (CacheJson timestamp (cached_channels c)
                      (XmlOf (cached_root c))) /\
       (now - timestamp <= CACHE_MAX_AGE)%Q) /\
  (forall T matched root w,
     load_channel_cache (T + CACHE_MAX_AGE - 1)
       (cache_file (save_channel_cache T matched root w))
     = Return (Some {| cached_channels := matched; cached_root := root |})) /\
  (forall T matched root w,
     load_channel_cache (T + CACHE_MAX_AGE + 1)
       (cache_file (save_channel_cache T matched root w))
     = Return None) /\
  (forall e, load_channel_cache now (Some (CacheCorrupt e)) = Return None) /\
  (forall timestamp matched,
     load_channel_cache now (Some (CacheJson timestamp matched XmlMalformed))
     = Return None) /\
  load_channel_cache now None = Return None.
Proof.
  split.
  { destruct file as [content|]; simpl; [|eauto].
    destruct (load_cache_body now content); eauto. }
  split.
  { intros c H. destruct file as [[timestamp matched xml|e]|]; simpl in H;
      try discriminate.
    destruct (Qgtb (now - timestamp) CACHE_MAX_AGE) eqn:G; [discriminate|].
    destruct xml as [root|]; [|discriminate].
    injection H as <-. exists timestamp. split; [reflexivity|].
    apply Qgtb_false. exact G. }
  split.
  { intros T matched root w. cbn [cache_file save_channel_cache].
    apply load_fresh. unfold CACHE_MAX_AGE. lra. }
  split.
  { intros T matched root w. cbn [cache_file save_channel_cache].
    apply load_stale. unfold CACHE_MAX_AGE. lra. }
  split; [reflexivity|].
  split; [|reflexivity].
  intros timestamp matched. simpl.
  destruct (Qgtb (now - timestamp) CACHE_MAX_AGE); reflexivity.
Qed.

(** C6: a guide artifact modified at [T] is fresh at
    [T + GUIDE_CACHE_MAX_AGE - 1] and stale at [T + GUIDE_CACHE_MAX_AGE + 1];
    an absent artifact is never fresh; in general the artifact is fresh
    exactly when its age is at most [GUIDE_CACHE_MAX_AGE]. *)
Theorem C6_guide_freshness (T : Q) :
  is_guide_recent (T + GUIDE_CACHE_MAX_AGE - 1) (Some T) = true /\
  is_guide_recent (T + GUIDE_CACHE_MAX_AGE + 1) (Some T) = false /\
  (forall now, is_guide_recent now None = false) /\
  (forall now, is_guide_recent now (Some T) = true
               <-> (now - T <= GUIDE_CACHE_MAX_AGE)%Q).
Proof.
  split.
  { simpl. replace (Qgtb _ _) with false; [reflexivity|].
    symmetry. apply Qgtb_false. unfold GUIDE_CACHE_MAX_AGE. lra. }
  split.
  { simpl. replace (Qgtb _ _) with true; [reflexivity|].
    symmetry. apply Qgtb_true. unfold GUIDE_CACHE_MAX_AGE. lra. }
  split; [reflexivity|].
  intros now. simpl.
  destruct (Qgtb (now - T) GUIDE_CACHE_MAX_AGE) eqn:G.
  - apply Qgtb_true in G. split; [discriminate|].
    intros H. exfalso. apply (Qlt_not_le _ _ G). exact H.
  - apply Qgtb_false in G. split; auto.
Qed.

Lemma main_split args env s :
  main args env s
  = match (setup env ;; obtain_matches args env) s with
    | (s', inl m) => produce_outputs args env m s'
    | (s', inr o) => (s', inr o)
    end.
Proof.
  unfold main, bind. destruct (setup env s) as [s0 [[]|o]]; [|reflexivity].
  destruct (obtain_matches args env s0) as [s1 [m|o]]; reflexivity.
Qed.

(** Computations that write neither output file. *)
Section Frame.

Lemma untouched_refl s : outputs_untouched s s.
Proof. repeat split. Qed.

Lemma untouched_trans s1 s2 s3 :
  outputs_untouched s1 s2 -> outputs_untouched s2 s3 ->
  outputs_untouched s1 s3.
Proof.
  intros (A1 & B1 & C1) (A2 & B2 & C2). repeat split; congruence.
Qed.

Lemma preserves_ret {A : Type} (a : A) : preserves (ret a).
Proof. intros s s' r H. injection H as <- _. apply untouched_refl. Qed.

Lemma preserves_raise {A : Type} e : preserves (@raise A e).
Proof. intros s s' r H. injection H as <- _. apply untouched_refl. Qed.

Lemma preserves_sys_exit {A : Type} code : preserves (@sys_exit A code).
Proof. intros s s' r H. injection H as <- _. apply untouched_refl. Qed.

Lemma preserves_lift {A : Type} (x : result A) : preserves (lift x).
Proof. destruct x; [apply preserves_ret | apply preserves_raise]. Qed.

Lemma preserves_read : preserves read_world.
Proof. intros s s' r H. injection H as <- _. apply untouched_refl. Qed.

Lemma preserves_emit ev : output_event ev = false -> preserves (emit ev).
Proof.
  intros E s s' r H. injection H as <- _.
  repeat split. cbn. rewrite existsb_app. cbn. rewrite E. cbn.
  apply orb_false_r.
Qed.

Lemma preserves_update f :
  (forall w, channels_file (f w) = channels_file w
             /\ playlist_file (f w) = playlist_file w) ->
  preserves (update_world f).
Proof.
  intros F s s' r H. injection H as <- _.
  destruct (F (world s)) as [F1 F2]. repeat split; assumption.
Qed.

Lemma preserves_bind {A B : Type} (m : M A) (k : A -> M B) :
  preserves m -> (forall a, preserves (k a)) -> preserves (bind m k).
Proof.
  intros Hm Hk s s' r H. unfold bind in H.
  destruct (m s) as [s1 [a|o]] eqn:E.
  - eapply untouched_trans; [eapply Hm; exact E | eapply Hk; exact H].
  - injection H as <- _. eapply Hm. exact E.
Qed.

End Frame.

Create HintDb frame.
#[export] Hint Resolve preserves_ret preserves_raise preserves_sys_exit
  preserves_lift preserves_read : frame.

Ltac frame_step :=
  first [ apply preserves_bind; [|intros ?]
        | apply preserves_emit; reflexivity
        | apply preserves_update; intros ?; split; reflexivity
        | solve [auto with frame] ].

Lemma preserves_setup env : preserves (setup env).
Proof.
  unfold setup, run_command.
  repeat frame_step; destruct (git_ok env), (npm_ok env), (epg_cloned env);
    repeat frame_step.
Qed.

Lemma preserves_obtain_matches args env : preserves (obtain_matches args env).
Proof.
  unfold obtain_matches.
  apply preserves_bind.
  - destruct (refresh args); repeat frame_step.
  - intros [c|]; repeat frame_step.
Qed.

(** Up to the guard a run writes neither output file. *)
Lemma prelude_frame args env s s' r :
  (setup env ;; obtain_matches args env) s = (s', r) ->
  outputs_untouched s s'.
Proof.
  revert s s' r. change (preserves (setup env ;; obtain_matches args env)).
  apply preserves_bind; [apply preserves_setup|].
  intros _. apply preserves_obtain_matches.
Qed.

Lemma no_output_events tr :
  existsb output_event tr = false ->
  ~ In ChannelsWritten tr /\ ~ In PlaylistWritten tr.
Proof.
  intros H. split; intros Hin;
    (assert (E : existsb output_event tr = true)
       by (apply existsb_exists; eexists; split; [exact Hin|reflexivity]);
     congruence).
Qed.

(** C3: a run that reaches the guard with [matched_count = 0], from a match
    pass or from a loaded cache, ends with [sys.exit(1)]; neither the
    catalog subset nor the filtered playlist has been written. *)
Theorem C3_zero_matches_stop_before_outputs
  (args : Args) (env : Env) (w : World) :
  matched_count_reached args env w = Some 0%Z ->
  exists s,
    run args env w = (s, SysExit 1) /\
    channels_file (world s) = channels_file w /\
    playlist_file (world s) = playlist_file w /\
    ~ In ChannelsWritten (trace s) /\
    ~ In PlaylistWritten (trace s).
Proof.
  unfold matched_count_reached, run. rewrite main_split.
  destruct ((setup env ;; obtain_matches args env) (start w))
    as [s [[[matched root] count]|o]] eqn:E; [|discriminate].
  intros H. injection H as ->.
  exists s. cbn.
  destruct (prelude_frame args env (start w) s _ E) as (F1 & F2 & F3).
  split; [reflexivity|]. split; [exact F1|]. split; [exact F2|].
  apply no_output_events. rewrite F3. reflexivity.
Qed.

(** The theorem on a run whose playlist matches nothing. *)
Lemma C3_witness :
  matched_count_reached no_flags (env_no_match 0) empty_world = Some 0%Z /\
  exists s,
    run no_flags (env_no_match 0) empty_world = (s, SysExit 1) /\
    channels_file (world s) = channels_file empty_world /\
    playlist_file (world s) = playlist_file empty_world /\
    ~ In ChannelsWritten (trace s) /\
    ~ In PlaylistWritten (trace s).
Proof.
  split; [reflexivity|].
  apply C3_zero_matches_stop_before_outputs. reflexivity.
Defined.

Lemma setup_run env s :
  setup env s
  = let ev := if epg_cloned env then GitPull else GitClone in
    if git_ok env then
      if npm_ok env then
        ({| world := world s; trace := trace s ++ [ev; NpmInstall] |}, inl tt)
      else ({| world := world s; trace := trace s ++ [ev; NpmInstall] |},
            inr (Uncaught CalledProcessError))
    else ({| world := world s; trace := trace s ++ [ev] |},
          inr (Uncaught CalledProcessError)).
Proof.
  unfold setup, run_command, bind, emit, ret, raise. cbn.
  destruct (git_ok env), (npm_ok env); cbn; rewrite <- ?app_assoc; reflexivity.
Qed.

Lemma obtain_fresh args env s :
  refresh args = true
  \/ load_channel_cache (clock_load env) (cache_file (world s)) = Return None ->
  obtain_matches args env s
  = match download env with
    | Raise e =>
        ({| world := world s; trace := trace s ++ [Downloaded] |},
         inr (Uncaught e))
    | Return m3u_content =>
        match match_loop (path_ext env) (sites env) (parse_m3u m3u_content)
                match_init with
        | Raise e =>
            ({| world := world s;
                trace := trace s ++ [Downloaded; CatalogScanned] |},
             inr (Uncaught e))
        | Return st =>
            ({| world := save_channel_cache (clock_save env)
                           (matched_channels st)
                           (new_channels_root (definitions st)) (world s);
                trace := trace s ++ [Downloaded; CatalogScanned; CacheSaved] |},
             inl (matched_channels st, new_channels_root (definitions st),
                  matched_count st))
        end
    end.
Proof.
  intros H. unfold obtain_matches, bind, emit, ret, raise, lift, read_world,
    update_world.
  destruct (refresh args) eqn:R.
  - cbn. destruct (download env) as [m3u|e]; cbn; [|reflexivity].
    destruct (match_loop (path_ext env) (sites env) (parse_m3u m3u) match_init)
      as [st|e]; cbn; rewrite <- ?app_assoc; reflexivity.
  - destruct H as [H|H]; [discriminate|]. cbn. rewrite H. cbn.
    destruct (download env) as [m3u|e]; cbn; [|reflexivity].
    destruct (match_loop (path_ext env) (sites env) (parse_m3u m3u) match_init)
      as [st|e]; cbn; rewrite <- ?app_assoc; reflexivity.
Qed.

Lemma obtain_cached args env s c :
  refresh args = false ->
  load_channel_cache (clock_load env) (cache_file (world s)) = Return (Some c) ->
  obtain_matches args env s
  = (s, inl (cached_channels c, cached_root c,
             Z.of_nat (length (cached_channels c)))).
Proof.
  intros R L. unfold obtain_matches, bind, ret, lift, read_world.
  rewrite R. cbn. rewrite L. reflexivity.
Qed.

(** A match pass that counts no match has matched nothing. *)
Lemma match_loop_zero ext sites channels st :
  match_loop ext sites channels match_init = Return st ->
  matched_count st = 0%Z ->
  matched_channels st = [] /\ definitions st = [].
Proof.
  intros E Z0.
  destruct (match_loop_from ext sites channels match_init)
    as (st' & E' & A & B & C & _).
  rewrite E in E'. injection E' as <-.
  cbn [match_init definitions matched_channels matched_count app] in *.
  assert (L : length (filter (is_matched ext sites) channels) = 0) by lia.
  rewrite L in B. split.
  - rewrite A. destruct (filter _ channels); [reflexivity|discriminate].
  - destruct (definitions st); [reflexivity|discriminate].
Qed.

(** C10: on a fresh run the cache is saved before the zero-match guard.
    When the match pass counts no match the run ends with [sys.exit(1)]
    without writing an output file, but the cache file already holds a
    record with the time of the save and the empty result; a later run
    without [--refresh] that loads it within [CACHE_MAX_AGE] takes that
    empty result, neither downloads nor scans, and ends the same way. *)
Theorem C10_empty_result_is_cached_before_guard
  (args : Args) (env : Env) (w : World) :
  refresh args = true
  \/ load_channel_cache (clock_load env) (cache_file w) = Return None ->
  matched_count_reached args env w = Some 0%Z ->
  exists s,
    run args env w = (s, SysExit 1) /\
    cache_file (world s)
    = Some (CacheJson (clock_save env) [] (XmlOf (new_channels_root []))) /\
    In CacheSaved (trace s) /\
    channels_file (world s) = channels_file w /\
    playlist_file (world s) = playlist_file w /\
    forall args2 env2,
      refresh args2 = false -> git_ok env2 = true -> npm_ok env2 = true ->
      (clock_load env2 - clock_save env <= CACHE_MAX_AGE)%Q ->
      exists s2,
        run args2 env2 (world s) = (s2, SysExit 1) /\
        existsb rescan_event (trace s2) = false /\
        world s2 = world s.
Proof.
  intros Hfresh Hzero.
  unfold matched_count_reached in Hzero. unfold run. rewrite main_split.
  unfold bind in Hzero |- *. rewrite setup_run in Hzero |- *. cbv zeta in *.
  destruct (git_ok env); [|discriminate].
  destruct (npm_ok env); [|discriminate].
  rewrite obtain_fresh in Hzero |- * by exact Hfresh.
  destruct (download env) as [m3u|e]; [|discriminate].
  destruct (match_loop (path_ext env) (sites env) (parse_m3u m3u) match_init)
    as [st|e] eqn:E; [|discriminate].
  injection Hzero as Hzero.
  destruct (match_loop_zero _ _ _ _ E Hzero) as [Hm Hd].
  rewrite Hm, Hd, Hzero.
  eexists. split; [reflexivity|]. cbn.
  split; [reflexivity|].
  split; [do 4 right; left; reflexivity|].
  split; [reflexivity|]. split; [reflexivity|].
  intros args2 env2 R2 G2 N2 Hage.
  unfold run. rewrite main_split. unfold bind.
  rewrite setup_run, G2, N2. cbv beta iota zeta.
  erewrite obtain_cached; [| exact R2 | apply load_fresh; exact Hage].
  cbn. eexists. split; [reflexivity|]. cbn.
  split; [destruct (epg_cloned env2)|]; reflexivity.
Qed.

(** The theorem on a run without cache whose playlist matches nothing. *)
Lemma C10_witness :
  (refresh no_flags = true
   \/ load_channel_cache (clock_load (env_no_match 1000))
        (cache_file empty_world) = Return None) /\
  matched_count_reached no_flags (env_no_match 1000) empty_world = Some 0%Z /\
  exists s,
    run no_flags (env_no_match 1000) empty_world = (s, SysExit 1) /\
    cache_file (world s)
    = Some (CacheJson (clock_save (env_no_match 1000)) []
              (XmlOf (new_channels_root []))) /\
    In CacheSaved (trace s) /\
    channels_file (world s) = channels_file empty_world /\
    playlist_file (world s) = playlist_file empty_world /\
    forall args2 env2,
      refresh args2 = false -> git_ok env2 = true -> npm_ok env2 = true ->
      (clock_load env2 - clock_save (env_no_match 1000) <= CACHE_MAX_AGE)%Q ->
      exists s2,
        run args2 env2 (world s) = (s2, SysExit 1) /\
        existsb rescan_event (trace s2) = false /\
        world s2 = world s.
Proof.
  split; [right; reflexivity|]. split; [reflexivity|].
  apply C10_empty_result_is_cached_before_guard;
    [right; reflexivity | reflexivity].
Defined.

(* ================================================================== *)
(** ** Further properties of the parser *)

Section Strings.

Lemma lstrip_suffix s : exists w, s = w ++ lstrip s.
Proof.
  induction s as [|c s IH]; simpl.
  - exists []. reflexivity.
  - destruct (isspace c).
    + destruct IH as [w E]. exists (c :: w). simpl. congruence.
    + exists []. reflexivity.
Qed.

Lemma lstrip_head s c r : lstrip s = c :: r -> isspace c = false.
Proof.
  induction s as [|d s IH]; simpl; [discriminate|].
  destruct (isspace d) eqn:E; [exact IH|].
  intros H. injection H as <- _. exact E.
Qed.

Lemma lstrip_fixed c r : isspace c = false -> lstrip (c :: r) = c :: r.
Proof. intros H. simpl. rewrite H. reflexivity. Qed.

Lemma rstrip_prefix s : exists w, s = rstrip s ++ w.
Proof.
  unfold rstrip. destruct (lstrip_suffix (rev s)) as [w E].
  exists (rev w). rewrite <- rev_app_distr, <- E, rev_involutive. reflexivity.
Qed.

Lemma rstrip_last s r c : rstrip s = r ++ [c] -> isspace c = false.
Proof.
  unfold rstrip. intros H.
  assert (E : lstrip (rev s) = c :: rev r).
  { rewrite <- (rev_involutive (lstrip (rev s))), H, rev_app_distr.
    reflexivity. }
  apply lstrip_head in E. exact E.
Qed.

Lemma rstrip_fixed r c : isspace c = false -> rstrip (r ++ [c]) = r ++ [c].
Proof.
  intros H. unfold rstrip. rewrite rev_app_distr. simpl. rewrite H.
  simpl. rewrite rev_involutive. reflexivity.
Qed.

(** [strip] is idempotent. *)
Lemma strip_strip s : strip (strip s) = strip s.
Proof.
  unfold strip.
  destruct (rstrip (lstrip s)) as [|c t] eqn:E; [reflexivity|].
  assert (Hc : isspace c = false).
  { destruct (rstrip_prefix (lstrip s)) as [w Ew]. rewrite E in Ew.
    simpl in Ew. apply (lstrip_head s c (t ++ w)). exact Ew. }
  rewrite lstrip_fixed by exact Hc.
  destruct (exists_last (l := c :: t)) as (r & d & Er); [discriminate|].
  rewrite Er in *. apply rstrip_fixed. apply (rstrip_last (lstrip s) r d E).
Qed.

(** What [strip] keeps is part of the string. *)
Lemma strip_infix s : exists a b, s = a ++ strip s ++ b.
Proof.
  unfold strip. destruct (lstrip_suffix s) as [a Ea].
  destruct (rstrip_prefix (lstrip s)) as [b Eb].
  exists a, b. rewrite <- Eb. exact Ea.
Qed.

Lemma strip_in x s : In x (strip s) -> In x s.
Proof.
  intros H. destruct (strip_infix s) as (a & b & E). rewrite E.
  apply in_or_app. right. apply in_or_app. left. exact H.
Qed.

(** The pieces of a split hold no newline. *)
Lemma split_nl_no_lf s : Forall (fun l => ~ In LF l) (split_nl s).
Proof.
  induction s as [|c s IH]; simpl.
  - constructor; [intros []|constructor].
  - destruct (N.eqb_spec c LF) as [->|Hc].
    + constructor; [intros []|exact IH].
    + destruct (split_nl s) as [|l ls].
      * constructor; [|constructor]. intros [E|[]]. congruence.
      * inversion IH as [|? ? Hl Hls]; subst.
        constructor; [|exact Hls]. intros [E|E]; [congruence|contradiction].
Qed.

Lemma split_nl_line l s :
  ~ In LF l -> split_nl (l ++ LF :: s) = l :: split_nl s.
Proof.
  induction l as [|c l IH]; intros H; simpl.
  - reflexivity.
  - destruct (N.eqb_spec c LF) as [->|Hc]; [exfalso; apply H; left; reflexivity|].
    rewrite IH by (intros Hin; apply H; right; exact Hin). reflexivity.
Qed.

Lemma split_nl_last l : ~ In LF l -> split_nl l = [l].
Proof.
  induction l as [|c l IH]; intros H; simpl; [reflexivity|].
  destruct (N.eqb_spec c LF) as [->|Hc]; [exfalso; apply H; left; reflexivity|].
  rewrite IH by (intros Hin; apply H; right; exact Hin). reflexivity.
Qed.

(** Splitting a joined block of lines that is followed by a newline. *)
Lemma split_nl_block ls : forall s,
  ls <> [] -> Forall (fun l => ~ In LF l) ls ->
  split_nl (join_nl ls ++ LF :: s) = ls ++ split_nl s.
Proof.
  induction ls as [|l ls IH]; intros s Hne Hl; [congruence|].
  inversion Hl as [|? ? H1 H2]; subst.
  destruct ls as [|l' ls].
  - simpl. apply split_nl_line. exact H1.
  - change (join_nl (l :: l' :: ls)) with (l ++ LF :: join_nl (l' :: ls)).
    rewrite <- app_assoc. simpl. rewrite split_nl_line by exact H1.
    rewrite IH by (try discriminate; exact H2). reflexivity.
Qed.

End Strings.

Lemma stored_strip l : ~ In LF l -> stored_line (strip l).
Proof.
  intros H. split; [apply strip_strip|].
  intros Hin. apply H. apply strip_in. exact Hin.
Qed.

Lemma entry_at_well_formed lines ch :
  Forall (fun l => ~ In LF l) lines ->
  entry_at lines ch -> well_formed_entry ch.
Proof.
  intros Hlf (pre & p & aux & blanks & u & post & E & Hp & Ha & Hb & Hu & _ & ->).
  rewrite E in Hlf.
  apply Forall_app in Hlf. destruct Hlf as [_ Hlf].
  inversion Hlf as [|? ? Lp Hlf1]; subst.
  apply Forall_app in Hlf1. destruct Hlf1 as [La Hlf2].
  apply Forall_app in Hlf2. destruct Hlf2 as [_ Hlf3].
  inversion Hlf3 as [|? ? Lu _]; subst.
  exists (strip p), (map strip aux). cbn [stream_url make_channel].
  split; [reflexivity|].
  split; [exact Hp|].
  split.
  { apply Forall_map. eapply Forall_impl; [|exact Ha].
    intros a Haux. unfold is_aux in Haux.
    apply andb_true_iff in Haux. destruct Haux as [H1 H2].
    apply negb_true_iff in H2. split; assumption. }
  split.
  { unfold is_blank in Hu. apply negb_false_iff in Hu.
    intros E0. rewrite E0 in Hu. discriminate. }
  constructor; [apply stored_strip; exact Lu|].
  constructor; [apply stored_strip; exact Lp|].
  apply Forall_map. eapply Forall_impl; [|exact La].
  intros a. apply stored_strip.
Qed.

(** X1: every entry the parser returns is well formed: its first metadata line
    is the [#EXTINF] line, the others are auxiliary directives, its URL is
    not empty, and every line is stored trimmed and free of newlines. *)
Theorem parsed_entries_well_formed (txt : str) (ch : Channel) :
  In ch (parse_m3u txt) -> well_formed_entry ch.
Proof.
  intros H. apply parse_lines_sound in H.
  apply (entry_at_well_formed (split_nl txt)); [apply split_nl_no_lf | exact H].
Qed.

Lemma parsed_entries_well_formed_witness :
  In (make_channel
        [lit "#EXTINF:-1 tvg-id=" ++ [DQUOTE] ++ lit "abc" ++ [DQUOTE]
           ++ lit ",ABC";
         lit "#EXTVLCOPT:http-user-agent=x"]
        (lit "http://abc"))
     (parse_m3u playlist_padded) /\
  well_formed_entry
    (make_channel
       [lit "#EXTINF:-1 tvg-id=" ++ [DQUOTE] ++ lit "abc" ++ [DQUOTE]
          ++ lit ",ABC";
        lit "#EXTVLCOPT:http-user-agent=x"]
       (lit "http://abc")).
Proof.
  split.
  - left. reflexivity.
  - apply (parsed_entries_well_formed playlist_padded). left. reflexivity.
Defined.

(** How many entries the outer loop can add: at most one per [#EXTINF]
    line still to be read, and each takes at least two lines. *)
Lemma main_loop_bounds fuel : forall pre rest acc,
  length (main_loop fuel (pre ++ rest) (length pre) acc)
    <= length acc + length (filter is_extinf rest) /\
  2 * length (main_loop fuel (pre ++ rest) (length pre) acc)
    <= 2 * length acc + length rest.
Proof.
  induction fuel as [|fuel IH]; intros pre rest acc.
  - simpl. lia.
  - destruct rest as [|l rest].
    + rewrite main_loop_past by (rewrite app_nil_r; lia). simpl. lia.
    + destruct (is_extinf l) eqn:El.
      * pose proof (span_lines_spec is_aux rest) as Sa.
        destruct (span_lines is_aux rest) as [aux r1].
        destruct Sa as (-> & Ha & Hsa).
        pose proof (span_lines_spec is_blank r1) as Sb.
        destruct (span_lines is_blank r1) as [blanks r2].
        destruct Sb as (-> & Hb & Hsb).
        rewrite main_loop_extinf by assumption.
        cbn [filter]. rewrite El. rewrite !filter_app. cbn [length].
        rewrite !length_app.
        destruct r2 as [|u r3]; [cbn [length]; lia|].
        assert (E : pre ++ l :: aux ++ blanks ++ u :: r3
                    = (pre ++ l :: aux ++ blanks ++ [u]) ++ r3) by list_assoc.
        rewrite E.
        destruct (IH (pre ++ l :: aux ++ blanks ++ [u]) r3
                    (acc ++ [make_channel (strip l :: map strip aux) (strip u)]))
          as [B1 B2].
        set (R := main_loop fuel _ _ _) in *.
        rewrite (length_app acc) in B1, B2. cbn [length filter] in *.
        destruct (is_extinf u); cbn [length]; lia.
      * rewrite main_loop_other by assumption.
        rewrite snoc_app. destruct (IH (pre ++ [l]) rest acc) as [B1 B2].
        cbn [filter length]. rewrite El. lia.
Qed.

Lemma filter_none {A : Type} (f : A -> bool) l :
  Forall (fun x => f x = false) l -> filter f l = [].
Proof.
  induction 1 as [|x l Hx _ IH]; [reflexivity|]. simpl. rewrite Hx. exact IH.
Qed.

(** X2: the parser returns at most one entry per [#EXTINF] line and at most
    one entry per two lines; a text without [#EXTINF] line, the empty text
    included, gives no entry. *)
Theorem parse_m3u_size (txt : str) :
  length (parse_m3u txt) <= length (filter is_extinf (split_nl txt)) /\
  2 * length (parse_m3u txt) <= length (split_nl txt) /\
  (Forall (fun l => is_extinf l = false) (split_nl txt) -> parse_m3u txt = []).
Proof.
  unfold parse_m3u, parse_lines.
  destruct (main_loop_bounds (length (split_nl txt)) [] (split_nl txt) [])
    as [B1 B2].
  cbn [app length] in *.
  split; [lia|]. split; [lia|].
  intros Hno.
  rewrite (filter_none is_extinf _ Hno) in B1. simpl in B1.
  destruct (main_loop _ _ _ _); [reflexivity | simpl in B1; lia].
Qed.

(** X3: parsing is compositional over complete entries: after lines outside
    entries and complete entries, the parser continues on what follows as
    if it stood alone, whatever that is. *)
Theorem parse_lines_after_entries (its : list item) (rest : list str) :
  forallb valid_item its = true ->
  parse_lines (flat_map item_lines its ++ rest)
  = flat_map item_records its ++ parse_lines rest.
Proof.
  intros Hv. unfold parse_lines.
  pose proof (main_loop_items its _ [] rest [] Hv (le_n _)) as E.
  cbn [app length] in E. rewrite E.
  apply (main_loop_shift (length rest) (flat_map item_lines its) rest).
Qed.

Lemma parse_lines_after_entries_witness :
  forallb valid_item (items playlist_sample) = true /\
  parse_lines (flat_map item_lines (items playlist_sample)
                 ++ split_nl playlist_two_heads)
  = flat_map item_records (items playlist_sample)
    ++ parse_lines (split_nl playlist_two_heads).
Proof.
  split; [reflexivity|].
  apply parse_lines_after_entries. reflexivity.
Defined.

(* ------------------------------------------------------------------ *)
(** *** The identifier of an entry *)

Lemma drop_prefix_spec p : forall s r,
  drop_prefix p s = Some r <-> s = p ++ r.
Proof.
  induction p as [|a p IH]; intros s r; simpl.
  - split; intros H; congruence.
  - destruct s as [|b s]; [split; discriminate|].
    destruct (N.eqb_spec a b) as [->|Hab].
    + rewrite IH. split; intros H; congruence.
    + split; intros H; [discriminate | congruence].
Qed.

Lemma span_unquoted_spec s :
  s = fst (span_unquoted s) ++ snd (span_unquoted s) /\
  ~ In DQUOTE (fst (span_unquoted s)) /\
  (snd (span_unquoted s) = []
   \/ exists w, snd (span_unquoted s) = DQUOTE :: w).
Proof.
  induction s as [|c s IH]; simpl.
  - split; [reflexivity|]. split; [intros [] | left; reflexivity].
  - destruct (N.eqb_spec c DQUOTE) as [->|Hc]; simpl.
    + split; [reflexivity|]. split; [intros [] | right; eauto].
    + destruct (span_unquoted s) as [v r]. simpl in *.
      destruct IH as (E & Hn & Hr).
      split; [congruence|]. split; [|exact Hr].
      intros [H|H]; [congruence | contradiction].
Qed.

Lemma span_unquoted_app v b :
  ~ In DQUOTE v -> span_unquoted (v ++ DQUOTE :: b) = (v, DQUOTE :: b).
Proof.
  induction v as [|c v IH]; intros H; simpl.
  - reflexivity.
  - destruct (N.eqb_spec c DQUOTE) as [->|Hc];
      [exfalso; apply H; left; reflexivity|].
    rewrite IH by (intros Hin; apply H; right; exact Hin). reflexivity.
Qed.

Lemma tvg_id_here_sound s v :
  tvg_id_here s = Some v ->
  v <> [] /\ ~ In DQUOTE v /\ exists b, s = TVG_ID_OPEN ++ v ++ DQUOTE :: b.
Proof.
  unfold tvg_id_here. destruct (drop_prefix TVG_ID_OPEN s) as [r|] eqn:D;
    [|discriminate].
  apply drop_prefix_spec in D.
  pose proof (span_unquoted_spec r) as (E & Hn & Hr).
  destruct (span_unquoted r) as [[|c v'] [|q w]]; try discriminate.
  intros H. injection H as <-. simpl in E, Hn, Hr.
  destruct Hr as [Hr|[w' Hr]]; [discriminate|]. injection Hr as -> ->.
  split; [discriminate|]. split; [exact Hn|].
  exists w'. rewrite D, E. reflexivity.
Qed.

Lemma tvg_id_here_complete v b :
  v <> [] -> ~ In DQUOTE v ->
  tvg_id_here (TVG_ID_OPEN ++ v ++ DQUOTE :: b) = Some v.
Proof.
  intros Hv Hn. unfold tvg_id_here.
  assert (D : drop_prefix TVG_ID_OPEN (TVG_ID_OPEN ++ v ++ DQUOTE :: b)
              = Some (v ++ DQUOTE :: b))
    by (apply drop_prefix_spec; reflexivity).
  rewrite D, span_unquoted_app by exact Hn.
  destruct v; [congruence | reflexivity].
Qed.

Lemma search_tvg_id_sound s : forall v,
  search_tvg_id s = Some v ->
  v <> [] /\ ~ In DQUOTE v /\
  exists a b, s = a ++ TVG_ID_OPEN ++ v ++ DQUOTE :: b.
Proof.
  induction s as [|c s IH]; intros v; cbn [search_tvg_id].
  - destruct (tvg_id_here []) as [v'|] eqn:T; [|discriminate].
    intros H. injection H as ->.
    destruct (tvg_id_here_sound _ _ T) as (A & B & b & E).
    split; [exact A|]. split; [exact B|]. exists [], b. exact E.
  - destruct (tvg_id_here (c :: s)) as [v'|] eqn:T.
    + intros H. injection H as ->.
      destruct (tvg_id_here_sound _ _ T) as (A & B & b & E).
      split; [exact A|]. split; [exact B|]. exists [], b. exact E.
    + intros H. destruct (IH v H) as (A & B & a & b & E).
      split; [exact A|]. split; [exact B|]. exists (c :: a), b.
      rewrite E. reflexivity.
Qed.

Lemma search_tvg_id_complete a : forall v b,
  v <> [] -> ~ In DQUOTE v ->
  search_tvg_id (a ++ TVG_ID_OPEN ++ v ++ DQUOTE :: b) <> None.
Proof.
  induction a as [|c a IH]; intros v b Hv Hn.
  - cbn [app].
    assert (T : tvg_id_here (TVG_ID_OPEN ++ v ++ DQUOTE :: b) = Some v)
      by (apply tvg_id_here_complete; assumption).
    destruct (TVG_ID_OPEN ++ v ++ DQUOTE :: b);
      cbn [search_tvg_id]; rewrite T; discriminate.
  - cbn [app search_tvg_id].
    destruct (tvg_id_here (c :: a ++ TVG_ID_OPEN ++ v ++ DQUOTE :: b));
      [discriminate|].
    apply IH; assumption.
Qed.

(** X4: the identifier of a parsed entry is a non-empty text without double
    quote that stands in the [#EXTINF] line between the opening of the
    tvg-id attribute and a closing quote; there is none exactly when the
    line holds no such attribute with a non-empty value.  The match pass
    therefore skips the entries without such an attribute, and no others. *)
Theorem parsed_identifier (txt : str) (ch : Channel) :
  In ch (parse_m3u txt) ->
  (forall id, tvg_id ch = Some id ->
     id <> [] /\ ~ In DQUOTE id /\
     exists a b,
       hd [] (metadata_lines ch) = a ++ TVG_ID_OPEN ++ id ++ DQUOTE :: b) /\
  (tvg_id ch = None <->
   forall a v b, v <> [] -> ~ In DQUOTE v ->
     hd [] (metadata_lines ch) <> a ++ TVG_ID_OPEN ++ v ++ DQUOTE :: b) /\
  (no_tvg_id ch = true <-> tvg_id ch = None).
Proof.
  intros H. apply parse_lines_sound in H.
  destruct H as (pre & p & aux & blanks & u & post & _ & _ & _ & _ & _ & _ & ->).
  cbn [tvg_id metadata_lines make_channel hd].
  split; [intros id T; apply search_tvg_id_sound; exact T|].
  split.
  - split.
    + intros T a v b Hv Hn E.
      apply (search_tvg_id_complete a v b Hv Hn). rewrite <- E. exact T.
    + intros Hno. destruct (search_tvg_id (strip p)) as [v|] eqn:T;
        [|reflexivity].
      destruct (search_tvg_id_sound _ _ T) as (A & B & a & b & E).
      exfalso. exact (Hno a v b A B E).
  - unfold no_tvg_id. cbn [tvg_id make_channel hd].
    destruct (search_tvg_id (strip p)) as [v|] eqn:T.
    + destruct (search_tvg_id_sound _ _ T) as (A & _).
      destruct v; [congruence|]. simpl. split; discriminate.
    + split; reflexivity.
Qed.

Lemma parsed_identifier_witness :
  In (make_channel
        [lit "#EXTINF:-1 tvg-id=" ++ [DQUOTE] ++ lit "abc" ++ [DQUOTE]
           ++ lit ",ABC";
         lit "#EXTVLCOPT:http-user-agent=x"]
        (lit "http://abc"))
     (parse_m3u playlist_padded) /\
  tvg_id (make_channel
            [lit "#EXTINF:-1 tvg-id=" ++ [DQUOTE] ++ lit "abc" ++ [DQUOTE]
               ++ lit ",ABC";
             lit "#EXTVLCOPT:http-user-agent=x"]
            (lit "http://abc")) = Some (lit "abc") /\
  lit "abc" <> [] /\ ~ In DQUOTE (lit "abc").
Proof.
  assert (Hin : In (make_channel
        [lit "#EXTINF:-1 tvg-id=" ++ [DQUOTE] ++ lit "abc" ++ [DQUOTE]
           ++ lit ",ABC";
         lit "#EXTVLCOPT:http-user-agent=x"]
        (lit "http://abc"))
     (parse_m3u playlist_padded)) by (left; reflexivity).
  split; [exact Hin|]. split; [reflexivity|].
  destruct (proj1 (parsed_identifier playlist_padded _ Hin) (lit "abc") eq_refl)
    as (A & B & _).
  split; assumption.
Defined.

(* ------------------------------------------------------------------ *)
(** *** Reading back the playlist that [main] writes *)

Lemma well_formed_lines ch :
  well_formed_entry ch ->
  metadata_lines ch <> [] /\
  Forall stored_line (entry_lines ch) /\
  full_entry ch = join_nl (entry_lines ch).
Proof.
  intros (first & rest & E & _ & _ & _ & Hs). unfold entry_lines.
  rewrite E. cbn [metadata_lines stream_url full_entry make_channel].
  inversion Hs as [|? ? Hu Hm]; subst.
  split; [discriminate|]. split.
  - apply Forall_app. split; [exact Hm|]. constructor; [exact Hu|constructor].
  - rewrite join_nl_snoc by discriminate. reflexivity.
Qed.

Lemma split_written_entries chs :
  Forall well_formed_entry chs ->
  split_nl (flat_map (fun channel => full_entry channel ++ [LF]) chs)
  = flat_map entry_lines chs ++ [[]].
Proof.
  induction 1 as [|ch chs Hw _ IH]; [reflexivity|].
  destruct (well_formed_lines ch Hw) as (Hne & Hs & Hf).
  cbn [flat_map]. rewrite Hf, <- !app_assoc. cbn [app].
  rewrite split_nl_block.
  - rewrite IH. reflexivity.
  - unfold entry_lines. destruct (metadata_lines ch); [congruence|discriminate].
  - eapply Forall_impl; [|exact Hs]. intros l Hl. apply Hl.
Qed.

(** The lines of the written playlist: the header, the lines of every
    channel, and an empty last line. *)
Lemma split_playlist_text chs :
  Forall well_formed_entry chs ->
  split_nl (playlist_text chs) = playlist_lines (written_playlist chs).
Proof.
  intros Hw. unfold playlist_text, playlist_lines, written_playlist.
  cbn [items unfinished unfinished_lines flat_map item_lines].
  rewrite app_nil_r. cbn [app].
  rewrite split_nl_line
    by (cbv; intros H; repeat (destruct H as [H|H]; [discriminate H|]); exact H).
  f_equal. cbn [app]. rewrite split_written_entries by exact Hw.
  rewrite flat_map_app. cbn [flat_map item_lines app]. f_equal.
  clear -Hw. induction Hw as [|ch chs H _ IH]; [reflexivity|].
  cbn [map flat_map]. rewrite IH. f_equal.
  destruct H as (first & rest & E & _). unfold entry_item, entry_lines.
  rewrite E. reflexivity.
Qed.

Lemma entry_item_valid ch :
  well_formed_entry ch ->
  is_directive (stream_url ch) = false ->
  valid_item (entry_item ch) = true /\ item_records (entry_item ch) = [ch].
Proof.
  intros (first & rest & E & Hf & Hr & Hu & Hs) Hdir.
  inversion Hs as [|? ? [Su _] Hs1]; subst.
  inversion Hs1 as [|? ? [Sf _] Hs2]; subst.
  assert (Sr : map strip rest = rest).
  { apply map_fixed. eapply Forall_impl; [|exact Hs2]. intros l Hl. apply Hl. }
  assert (Ha : forallb is_aux rest = true).
  { apply forallb_forall. intros m Hm.
    rewrite Forall_forall in Hr, Hs2. unfold is_aux.
    destruct (Hs2 m Hm) as [Sm _]. destruct (Hr m Hm) as [H1 H2].
    rewrite Sm, H1, H2. reflexivity. }
  assert (Hb : is_blank (stream_url ch) = false).
  { unfold is_blank. rewrite Su. destruct (stream_url ch); [congruence|].
    reflexivity. }
  assert (Hm : metadata_lines ch = first :: rest) by (rewrite E; reflexivity).
  unfold entry_item. rewrite Hm.
  cbn [hd tl valid_item item_records forallb].
  split.
  - unfold is_extinf, is_url. rewrite Sf, Hf, Ha, Hb, Hdir. reflexivity.
  - rewrite Sf, Sr, Su. rewrite <- E. reflexivity.
Qed.

Lemma written_playlist_valid chs :
  Forall well_formed_entry chs ->
  Forall (fun ch => is_directive (stream_url ch) = false) chs ->
  valid_playlist (written_playlist chs) = true
  /\ complete_entries (written_playlist chs) = chs.
Proof.
  intros Hw Hd. unfold valid_playlist, complete_entries, written_playlist.
  cbn [items unfinished valid_unfinished forallb flat_map item_records app].
  rewrite andb_true_r, forallb_app, flat_map_app.
  cbn [forallb flat_map item_records valid_item]. rewrite app_nil_r.
  change (negb (is_extinf (lit "#EXTM3U"))) with true.
  change (negb (is_extinf [])) with true. cbn [andb]. rewrite andb_true_r.
  induction Hw as [|ch chs H _ IH]; [split; reflexivity|].
  inversion Hd as [|? ? Hdir Hd']; subst.
  destruct (IH Hd') as [IH1 IH2].
  destruct (entry_item_valid ch H Hdir) as [V R].
  cbn [map forallb flat_map]. rewrite IH1, IH2, V, R. split; reflexivity.
Qed.

(** X5: reading the written playlist back gives the channels that were
    written, field by field: for well-formed entries whose URL is not a
    directive, parsing [playlist_text] returns the same list. *)
Theorem written_playlist_reparses (chs : list Channel) :
  Forall well_formed_entry chs ->
  Forall (fun ch => is_directive (stream_url ch) = false) chs ->
  parse_m3u (playlist_text chs) = chs.
Proof.
  intros Hw Hd. unfold parse_m3u. rewrite split_playlist_text by exact Hw.
  destruct (written_playlist_valid chs Hw Hd) as [V C].
  rewrite parse_lines_playlist by exact V. exact C.
Qed.

Lemma written_playlist_reparses_witness :
  Forall well_formed_entry (parse_m3u playlist_padded) /\
  Forall (fun ch => is_directive (stream_url ch) = false)
    (parse_m3u playlist_padded) /\
  parse_m3u (playlist_text (parse_m3u playlist_padded))
  = parse_m3u playlist_padded.
Proof.
  assert (Hw : Forall well_formed_entry (parse_m3u playlist_padded)).
  { apply Forall_forall. intros ch Hin.
    apply parse_lines_sound in Hin.
    apply (entry_at_well_formed (split_nl playlist_padded));
      [apply split_nl_no_lf | exact Hin]. }
  assert (Hd : Forall (fun ch => is_directive (stream_url ch) = false)
                 (parse_m3u playlist_padded)).
  { constructor; [reflexivity | constructor]. }
  split; [exact Hw|]. split; [exact Hd|].
  apply written_playlist_reparses; assumption.
Defined.

(* ================================================================== *)
(** ** Further properties of the scanner and the match pass *)

Section ScannerExtras.

Variable ext : str -> element -> result (list element).

(** The query for an identifier without single quote selects the
    [channel] elements below the root whose [xmltv_id] is the identifier. *)
Lemma findall_quote_free root id :
  ~ In SQUOTE id ->
  ElementPath.findall ext root (channel_query id)
  = Return (document_hits id root).
Proof.
  intros Hq. unfold ElementPath.findall.
  assert (L : last (channel_query id) 0%N = ElementPath.RBRACKET).
  { unfold channel_query. rewrite app_assoc. apply PathFacts.last_two. }
  rewrite L. change (ElementPath.RBRACKET =? ElementPath.SLASH)%N with false.
  cbv iota. rewrite PathFacts.compile_quote_free by assumption.
  cbn [ElementPath.run_selector ElementPath.select flat_map app].
  rewrite app_nil_r. reflexivity.
Qed.

Lemma find_channel_first_hit id sites :
  ~ In SQUOTE id ->
  find_channel_in_sites ext id sites = Return (hd_error (catalog_hits id sites)).
Proof.
  intros Hq. induction sites as [|f rest IH]; [reflexivity|].
  cbn [find_channel_in_sites catalog_hits flat_map].
  destruct f as [e|root]; cbn [search_file].
  - destruct e; exact IH.
  - rewrite findall_quote_free by exact Hq.
    destruct (document_hits id root) as [|c hits]; [exact IH | reflexivity].
Qed.

Lemma document_hits_spec id root d :
  In d (document_hits id root) <->
  In d (descendants root) /\ elem_tag d = lit "channel"
  /\ elem_get d XMLTV_ID = Some id.
Proof.
  unfold document_hits. rewrite !filter_In.
  unfold ElementPath.tag_matches.
  change (str_eqb (lit "channel") [ElementPath.STAR]) with false.
  cbn [orb]. rewrite str_eqb_eq.
  split.
  - intros [[H1 H2] H3]. split; [exact H1|]. split; [exact H2|].
    destruct (elem_get d XMLTV_ID) as [v|]; [|discriminate].
    apply str_eqb_eq in H3. congruence.
  - intros (H1 & H2 & H3). rewrite H3. split; [split; assumption|].
    apply str_eqb_refl.
Qed.

Lemma catalog_hits_spec id sites d :
  In d (catalog_hits id sites) <->
  exists root, In (Document root) sites /\ In d (document_hits id root).
Proof.
  unfold catalog_hits. rewrite in_flat_map. split.
  - intros ([e|root] & Hf & Hd); [contradiction|]. eauto.
  - intros (root & Hf & Hd). exists (Document root). split; assumption.
Qed.

End ScannerExtras.

(** X6: for an identifier without single quote the scanner returns the first
    hit in file order and, within a file, in document order: a [channel]
    element below the root of a file that parses, with that [xmltv_id].
    It returns a definition exactly when such an element exists; files
    that do not parse and the root elements themselves never count. *)
Theorem scanner_returns_first_hit
  (ext : str -> element -> result (list element)) (id : str) (sites : catalog) :
  ~ In SQUOTE id ->
  find_channel_in_sites ext id sites = Return (hd_error (catalog_hits id sites))
  /\ ((exists c, find_channel_in_sites ext id sites = Return (Some c)) <->
      exists root d,
        In (Document root) sites /\ In d (descendants root) /\
        elem_tag d = lit "channel" /\ elem_get d XMLTV_ID = Some id).
Proof.
  intros Hq. pose proof (find_channel_first_hit ext id sites Hq) as E.
  split; [exact E|]. rewrite E. split.
  - intros [c Hc]. injection Hc as Hc.
    assert (Hin : In c (catalog_hits id sites)).
    { destruct (catalog_hits id sites); [discriminate|].
      injection Hc as ->. left. reflexivity. }
    apply catalog_hits_spec in Hin. destruct Hin as (root & Hf & Hd).
    apply document_hits_spec in Hd. exists root, c. tauto.
  - intros (root & d & Hf & Hd).
    assert (Hin : In d (catalog_hits id sites)).
    { apply catalog_hits_spec. exists root. split; [exact Hf|].
      apply document_hits_spec. exact Hd. }
    destruct (catalog_hits id sites) as [|c l]; [contradiction|].
    exists c. reflexivity.
Qed.

Lemma scanner_returns_first_hit_witness :
  ~ In SQUOTE (lit "abc") /\
  find_channel_in_sites no_ext (lit "abc") sample_catalog
  = Return (hd_error (catalog_hits (lit "abc") sample_catalog)) /\
  hd_error (catalog_hits (lit "abc") sample_catalog)
  = Some (channel_def (lit "abc") (lit "en")).
Proof.
  assert (Hq : ~ In SQUOTE (lit "abc")).
  { cbv. intros H. repeat (destruct H as [H|H]; [discriminate H|]). exact H. }
  split; [exact Hq|].
  split; [|reflexivity].
  exact (proj1 (scanner_returns_first_hit no_ext (lit "abc") sample_catalog Hq)).
Defined.

(** X7: when no identifier of the playlist holds a single quote, the match
    pass pairs every matched channel, in order, with a definition that
    carries the channel's identifier; the two lists always have the same
    length. *)
Theorem matched_definitions_carry_identifier
  (ext : str -> element -> result (list element))
  (sites : catalog) (channels : list Channel) (st : MatchState) :
  (forall ch id, In ch channels -> tvg_id ch = Some id -> ~ In SQUOTE id) ->
  match_loop ext sites channels match_init = Return st ->
  length (definitions st) = length (matched_channels st) /\
  Forall2 (fun ch d => elem_get d XMLTV_ID = tvg_id ch)
    (matched_channels st) (definitions st).
Proof.
  intros Hq E. split.
  - destruct (match_loop_from ext sites channels match_init)
      as (st' & E' & A & B & _).
    rewrite E in E'. injection E' as <-.
    cbn [match_init definitions matched_channels app length] in *.
    rewrite A. exact B.
  - apply (match_loop_identifiers ext sites channels match_init st Hq);
      [constructor | exact E].
Qed.

Lemma matched_definitions_carry_identifier_witness :
  (forall ch id, In ch three_channels -> tvg_id ch = Some id ->
                 ~ In SQUOTE id) /\
  match_loop no_ext sample_catalog three_channels match_init
  = Return {| definitions := [channel_def (lit "abc") (lit "en")];
              matched_channels := firstn 1 three_channels;
              matched_count := 1;
              skipped_count := 1 |} /\
  Forall2 (fun ch d => elem_get d XMLTV_ID = tvg_id ch)
    (firstn 1 three_channels) [channel_def (lit "abc") (lit "en")].
Proof.
  assert (Hq : forall ch id, In ch three_channels -> tvg_id ch = Some id ->
                             ~ In SQUOTE id).
  { intros ch id [<-|[<-|[<-|[]]]] H; vm_compute in H;
      try discriminate H; injection H as <-;
      cbv; intros K; repeat (destruct K as [K|K]; [discriminate K|]); exact K. }
  assert (E : match_loop no_ext sample_catalog three_channels match_init
              = Return {| definitions := [channel_def (lit "abc") (lit "en")];
                          matched_channels := firstn 1 three_channels;
                          matched_count := 1;
                          skipped_count := 1 |}) by reflexivity.
  split; [exact Hq|]. split; [exact E|].
  exact (proj2 (matched_definitions_carry_identifier no_ext sample_catalog
                  three_channels _ Hq E)).
Defined.

(* ================================================================== *)
(** ** Further properties of the run *)

Lemma load_returns now file : exists r, load_channel_cache now file = Return r.
Proof.
  destruct file as [content|]; simpl; [|eauto].
  destruct (load_cache_body now content); eauto.
Qed.

Lemma load_hit_inv now file c :
  load_channel_cache now file = Return (Some c) ->
  exists timestamp,
    file = Some (CacheJson timestamp (cached_channels c) (XmlOf (cached_root c)))
    /\ (now - timestamp <= CACHE_MAX_AGE)%Q.
Proof.
  intros H. destruct file as [[timestamp matched xml|e]|]; simpl in H;
    try discriminate.
  destruct (Qgtb (now - timestamp) CACHE_MAX_AGE) eqn:G; [discriminate|].
  destruct xml as [root|]; [|discriminate].
  injection H as <-. exists timestamp. split; [reflexivity|].
  apply Qgtb_false. exact G.
Qed.

(** What a match pass from the initial state returns. *)
Lemma match_pass ext sites channels :
  exists st,
    match_loop ext sites channels match_init = Return st /\
    matched_channels st = filter (is_matched ext sites) channels /\
    length (definitions st) = length (matched_channels st) /\
    matched_count st = Z.of_nat (length (matched_channels st)).
Proof.
  destruct (match_loop_from ext sites channels match_init)
    as (st & E & A & B & C & _).
  exists st. cbn [match_init definitions matched_channels matched_count
                    app length] in *.
  rewrite A. repeat split; [exact E | exact B | lia].
Qed.

(** The run from the guard on, branch by branch. *)
Lemma produce_run args env matched root count s :
  produce_outputs args env (matched, root, count) s
  = if (count =? 0)%Z then (s, inr (SysExit 1))
    else
      let w' := write_playlist matched (write_channels root (world s)) in
      let tr := trace s ++ [ChannelsWritten; PlaylistWritten] in
      if negb (refresh_epg args)
         && is_guide_recent (clock_guide env) (guide_file (world s))
      then ({| world := w'; trace := tr |}, inl tt)
      else if grab_ok env then
             if guide_path_exists env then
               ({| world := copy_guide (clock_copy env) w';
                   trace := tr ++ [GrabRun; GuideCopied] |}, inl tt)
             else ({| world := w'; trace := tr ++ [GrabRun] |}, inl tt)
           else ({| world := w'; trace := tr ++ [GrabRun] |},
                 inr (SysExit 1)).
Proof.
  unfold produce_outputs, generate, bind, emit, ret, sys_exit, update_world,
    read_world.
  destruct (count =? 0)%Z; [reflexivity|]. cbn.
  destruct (negb (refresh_epg args)
            && is_guide_recent (clock_guide env) (guide_file (world s)));
    cbn; rewrite <- ?app_assoc; [reflexivity|].
  destruct (grab_ok env); cbn; [|rewrite <- ?app_assoc; reflexivity].
  destruct (guide_path_exists env); cbn; rewrite <- ?app_assoc; reflexivity.
Qed.

(** The two ways a run reaches the guard: with the record of a fresh
    cache, or with the result of a match pass that it has just saved. *)
Lemma reach_guard args env w s' m :
  (setup env ;; obtain_matches args env) (start w) = (s', inl m) ->
  git_ok env = true /\ npm_ok env = true /\
  ((refresh args = false /\
    exists ts matched root,
      cache_file w = Some (CacheJson ts matched (XmlOf root)) /\
      (clock_load env - ts <= CACHE_MAX_AGE)%Q /\
      m = (matched, root, Z.of_nat (length matched)) /\
      s' = {| world := w; trace := [repository_event env; NpmInstall] |})
   \/
   ((refresh args = true
     \/ load_channel_cache (clock_load env) (cache_file w) = Return None) /\
    exists m3u st,
      download env = Return m3u /\
      match_loop (path_ext env) (sites env) (parse_m3u m3u) match_init
      = Return st /\
      m = (matched_channels st, new_channels_root (definitions st),
           matched_count st) /\
      s' = {| world := save_channel_cache (clock_save env)
                         (matched_channels st)
                         (new_channels_root (definitions st)) w;
              trace := [repository_event env; NpmInstall; Downloaded;
                        CatalogScanned; CacheSaved] |})).
Proof.
  unfold bind. rewrite setup_run. cbv zeta.
  destruct (git_ok env); [|discriminate].
  destruct (npm_ok env); [|discriminate].
  cbn [start world trace app]. intros H.
  split; [reflexivity|]. split; [reflexivity|].
  assert (Fresh : refresh args = true
                  \/ load_channel_cache (clock_load env) (cache_file w)
                     = Return None ->
                  exists m3u st,
                    download env = Return m3u /\
                    match_loop (path_ext env) (sites env) (parse_m3u m3u)
                      match_init = Return st /\
                    m = (matched_channels st,
                         new_channels_root (definitions st),
                         matched_count st) /\
                    s' = {| world := save_channel_cache (clock_save env)
                                       (matched_channels st)
                                       (new_channels_root (definitions st)) w;
                            trace := [repository_event env; NpmInstall;
                                      Downloaded; CatalogScanned;
                                      CacheSaved] |}).
  { intros F. rewrite obtain_fresh in H by exact F.
    cbn [world trace app] in H.
    destruct (download env) as [m3u|e]; [|discriminate].
    destruct (match_loop (path_ext env) (sites env) (parse_m3u m3u) match_init)
      as [st|e] eqn:E; [|discriminate].
    injection H as <- <-. exists m3u, st. repeat split. exact E. }
  destruct (refresh args) eqn:R.
  { right. split; [left; reflexivity|]. apply Fresh. left. reflexivity. }
  destruct (load_returns (clock_load env) (cache_file w)) as [[c|] L].
  - left. split; [reflexivity|].
    match type of H with
    | obtain_matches _ _ ?s = _ =>
        rewrite (obtain_cached args env s c R L) in H
    end.
    injection H as <- <-.
    destruct (load_hit_inv _ _ _ L) as (ts & Hf & Hage).
    exists ts, (cached_channels c), (cached_root c). repeat split; assumption.
  - right. split; [right; exact L|]. apply Fresh. right. exact L.
Qed.

(** The ways a run ends before the guard: a failing command or a failing
    download, with every file as it was. *)
Lemma stop_before_guard args env w s' o :
  (setup env ;; obtain_matches args env) (start w) = (s', inr o) ->
  world s' = w /\
  exists e, o = Uncaught e /\
    ((git_ok env = false /\ e = CalledProcessError
      /\ trace s' = [repository_event env])
     \/ (git_ok env = true /\ npm_ok env = false /\ e = CalledProcessError
         /\ trace s' = [repository_event env; NpmInstall])
     \/ (git_ok env = true /\ npm_ok env = true /\ download env = Raise e
         /\ trace s' = [repository_event env; NpmInstall; Downloaded])).
Proof.
  unfold bind. rewrite setup_run. cbv zeta.
  destruct (git_ok env).
  2:{ intros H. injection H as <- <-. split; [reflexivity|].
      exists CalledProcessError. split; [reflexivity|]. left. repeat split. }
  destruct (npm_ok env).
  2:{ intros H. injection H as <- <-. split; [reflexivity|].
      exists CalledProcessError. split; [reflexivity|]. right. left.
      repeat split. }
  cbn [start world trace app]. intros H.
  assert (Fresh : refresh args = true
                  \/ load_channel_cache (clock_load env) (cache_file w)
                     = Return None ->
                  world s' = w /\
                  exists e, o = Uncaught e /\ download env = Raise e /\
                    trace s' = [repository_event env; NpmInstall; Downloaded]).
  { intros F. rewrite obtain_fresh in H by exact F.
    cbn [world trace app] in H.
    destruct (download env) as [m3u|e].
    - destruct (match_pass (path_ext env) (sites env) (parse_m3u m3u))
        as (st & E & _). rewrite E in H. discriminate.
    - injection H as <- <-. split; [reflexivity|]. exists e. repeat split. }
  assert (Done : (world s' = w /\
                  exists e, o = Uncaught e /\ download env = Raise e /\
                    trace s' = [repository_event env; NpmInstall; Downloaded]) ->
                 world s' = w /\
                 exists e, o = Uncaught e /\
                   ((true = false /\ e = CalledProcessError
                     /\ trace s' = [repository_event env])
                    \/ (true = true /\ true = false /\ e = CalledProcessError
                        /\ trace s' = [repository_event env; NpmInstall])
                    \/ (true = true /\ true = true /\ download env = Raise e
                        /\ trace s' = [repository_event env; NpmInstall;
                                       Downloaded]))).
  { intros (W & e & Ho & Hd & Ht). split; [exact W|]. exists e.
    split; [exact Ho|]. right. right. repeat split; assumption. }
  destruct (refresh args) eqn:R.
  { apply Done, Fresh. left. reflexivity. }
  destruct (load_returns (clock_load env) (cache_file w)) as [[c|] L].
  - match type of H with
    | obtain_matches _ _ ?s = _ =>
        rewrite (obtain_cached args env s c R L) in H
    end.
    discriminate.
  - apply Done, Fresh. right. exact L.
Qed.


Ltac event_cases env :=
  unfold repository_event in *; destruct (epg_cloned env); cbn in *;
  intuition (try discriminate; try congruence).

Lemma run_split args env w :
  run args env w
  = match (setup env ;; obtain_matches args env) (start w) with
    | (s', inl m) =>
        match produce_outputs args env m s' with
        | (s, inl _) => (s, Finished)
        | (s, inr o) => (s, o)
        end
    | (s', inr o) => (s', o)
    end.
Proof.
  unfold run. rewrite main_split.
  destruct ((setup env ;; obtain_matches args env) (start w)) as [s' [m|o]];
    reflexivity.
Qed.

(** A run past the guard: both files are written, then the guide is
    reused, or the generator runs and fails, or it succeeds and
    [epg/guide.xml] is copied when it exists. *)
Lemma past_guard args env matched root count s0 s o :
  (count =? 0)%Z = false ->
  match produce_outputs args env (matched, root, count) s0 with
  | (s1, inl _) => (s1, Finished)
  | (s1, inr o1) => (s1, o1)
  end = (s, o) ->
  cache_file (world s) = cache_file (world s0) /\
  channels_file (world s) = Some root /\
  playlist_file (world s) = Some (playlist_text matched) /\
  exists tail,
    trace s = trace s0 ++ [ChannelsWritten; PlaylistWritten] ++ tail /\
    ((tail = [] /\ refresh_epg args = false /\
      is_guide_recent (clock_guide env) (guide_file (world s0)) = true /\
      o = Finished /\ guide_file (world s) = guide_file (world s0))
     \/
     ((refresh_epg args = true
       \/ is_guide_recent (clock_guide env) (guide_file (world s0)) = false) /\
      ((grab_ok env = false /\ tail = [GrabRun] /\ o = SysExit 1 /\
        guide_file (world s) = guide_file (world s0))
       \/ (grab_ok env = true /\ guide_path_exists env = false /\
           tail = [GrabRun] /\ o = Finished /\
           guide_file (world s) = guide_file (world s0))
       \/ (grab_ok env = true /\ guide_path_exists env = true /\
           tail = [GrabRun; GuideCopied] /\ o = Finished /\
           guide_file (world s) = Some (clock_copy env))))).
Proof.
  intros Z0. rewrite produce_run, Z0. cbv zeta.
  destruct (negb (refresh_epg args)
            && is_guide_recent (clock_guide env) (guide_file (world s0)))
    eqn:Skip.
  - intros H. injection H as <- <-. cbn.
    apply andb_true_iff in Skip. destruct Skip as [S1 S2].
    apply negb_true_iff in S1.
    repeat split. exists []. split; [reflexivity|]. left. repeat split; assumption.
  - assert (Gen : refresh_epg args = true
                  \/ is_guide_recent (clock_guide env) (guide_file (world s0))
                     = false).
    { apply andb_false_iff in Skip. destruct Skip as [S|S]; [left|right; exact S].
      apply negb_false_iff in S. exact S. }
    destruct (grab_ok env) eqn:G; [destruct (guide_path_exists env) eqn:Mk|];
      intros H; injection H as <- <-; cbn; repeat split.
    + exists [GrabRun; GuideCopied]. split; [rewrite <- app_assoc; reflexivity|].
      right. split; [exact Gen|]. right. right. repeat split.
    + exists [GrabRun]. split; [rewrite <- app_assoc; reflexivity|].
      right. split; [exact Gen|]. right. left. repeat split.
    + exists [GrabRun]. split; [rewrite <- app_assoc; reflexivity|].
      right. split; [exact Gen|]. left. repeat split.
Qed.

Lemma at_guard_zero args env matched root s0 :
  match produce_outputs args env (matched, root, 0%Z) s0 with
  | (s1, inl _) => (s1, Finished)
  | (s1, inr o1) => (s1, o1)
  end = (s0, SysExit 1).
Proof. rewrite produce_run. reflexivity. Qed.

(** What a run has done when it has written the playlist or has
    finished: it passed the guard from one of the two sources.  [ts] is
    the time of the cache record the run leaves behind. *)
Lemma written_run args env w s o :
  run args env w = (s, o) ->
  o = Finished \/ In PlaylistWritten (trace s) ->
  exists s0 matched root ts,
    (setup env ;; obtain_matches args env) (start w)
    = (s0, inl (matched, root, Z.of_nat (length matched))) /\
    matched <> [] /\
    cache_file (world s0) = Some (CacheJson ts matched (XmlOf root)) /\
    channels_file (world s0) = channels_file w /\
    playlist_file (world s0) = playlist_file w /\
    guide_file (world s0) = guide_file w /\
    ((refresh args = false /\ cache_file w = cache_file (world s0) /\
      (clock_load env - ts <= CACHE_MAX_AGE)%Q /\
      trace s0 = [repository_event env; NpmInstall])
     \/ (ts = clock_save env /\
         trace s0 = [repository_event env; NpmInstall; Downloaded;
                     CatalogScanned; CacheSaved])) /\
    match produce_outputs args env
            (matched, root, Z.of_nat (length matched)) s0 with
    | (s1, inl _) => (s1, Finished)
    | (s1, inr o1) => (s1, o1)
    end = (s, o) /\
    (Z.of_nat (length matched) =? 0)%Z = false.
Proof.
  intros H Hw. rewrite run_split in H.
  destruct ((setup env ;; obtain_matches args env) (start w))
    as [s0 [m|o']] eqn:E.
  2:{ exfalso. injection H as <- <-.
      destruct (stop_before_guard _ _ _ _ _ E) as (_ & e & -> & Ht).
      destruct Hw as [Hw|Hw]; [discriminate|].
      destruct Ht as [(_ & _ & Ht)|[(_ & _ & _ & Ht)|(_ & _ & _ & Ht)]];
        rewrite Ht in Hw; event_cases env. }
  destruct (reach_guard _ _ _ _ _ E)
    as (_ & _ & [(R & ts & matched & root & Hc & Hage & -> & Hs)
                | (F & m3u & st & Hd & Hl & -> & Hs)]).
  - destruct (Z.of_nat (length matched) =? 0)%Z eqn:Z0.
    { exfalso. apply Z.eqb_eq in Z0. rewrite Z0, at_guard_zero in H.
      injection H as <- <-. destruct Hw as [Hw|Hw]; [discriminate|].
      rewrite Hs in Hw. event_cases env. }
    exists s0, matched, root, ts.
    split; [reflexivity|].
    split; [intros ->; discriminate|].
    assert (W0 : world s0 = w) by (rewrite Hs; reflexivity).
    assert (T0 : trace s0 = [repository_event env; NpmInstall])
      by (rewrite Hs; reflexivity).
    rewrite W0, T0.
    split; [exact Hc|]. do 3 (split; [reflexivity|]).
    split; [left; repeat split; assumption|].
    split; [exact H | exact Z0].
  - destruct (match_pass (path_ext env) (sites env) (parse_m3u m3u))
      as (st' & E' & _ & _ & C).
    rewrite Hl in E'. injection E' as <-. rewrite C in *.
    destruct (Z.of_nat (length (matched_channels st)) =? 0)%Z eqn:Z0.
    { exfalso. apply Z.eqb_eq in Z0. rewrite Z0, at_guard_zero in H.
      injection H as <- <-. destruct Hw as [Hw|Hw]; [discriminate|].
      rewrite Hs in Hw. event_cases env. }
    exists s0, (matched_channels st), (new_channels_root (definitions st)),
      (clock_save env).
    split; [reflexivity|].
    split; [intros Hnil; rewrite Hnil in Z0; discriminate|].
    assert (W0 : world s0
                 = save_channel_cache (clock_save env) (matched_channels st)
                     (new_channels_root (definitions st)) w)
      by (rewrite Hs; reflexivity).
    assert (T0 : trace s0 = [repository_event env; NpmInstall; Downloaded;
                             CatalogScanned; CacheSaved])
      by (rewrite Hs; reflexivity).
    rewrite W0, T0.
    cbn [save_channel_cache cache_file channels_file playlist_file guide_file].
    do 4 (split; [reflexivity|]).
    split; [right; split; reflexivity|].
    split; [exact H | exact Z0].
Qed.

(* ------------------------------------------------------------------ *)
(** *** The files a run leaves behind *)

(** X8: a run that finishes, or that has written the filtered playlist, has
    passed the guard with a non-empty match list, and leaves three files
    that hold the same match result: the cache record, the catalog subset
    and the filtered playlist.  The cache record is the one the run loaded
    within [CACHE_MAX_AGE], or the one it saved itself. *)
Theorem written_outputs_agree_with_cache
  (args : Args) (env : Env) (w : World) (s : RunState) (o : outcome) :
  run args env w = (s, o) ->
  o = Finished \/ In PlaylistWritten (trace s) ->
  exists ts matched root,
    matched <> [] /\
    cache_file (world s) = Some (CacheJson ts matched (XmlOf root)) /\
    channels_file (world s) = Some root /\
    playlist_file (world s) = Some (playlist_text matched) /\
    In ChannelsWritten (trace s) /\ In PlaylistWritten (trace s) /\
    ((refresh args = false /\ cache_file w = cache_file (world s) /\
      (clock_load env - ts <= CACHE_MAX_AGE)%Q)
     \/ (ts = clock_save env /\ In CacheSaved (trace s))).
Proof.
  intros H Hw.
  destruct (written_run _ _ _ _ _ H Hw)
    as (s0 & matched & root & ts & _ & Hne & Hc & _ & _ & _ & Src & P & Z0).
  destruct (past_guard _ _ _ _ _ _ _ _ Z0 P)
    as (C1 & C2 & C3 & tail & Ht & _).
  exists ts, matched, root.
  split; [exact Hne|]. split; [congruence|].
  split; [exact C2|]. split; [exact C3|].
  rewrite Ht.
  split; [apply in_or_app; right; left; reflexivity|].
  split; [apply in_or_app; right; right; left; reflexivity|].
  destruct Src as [(R & Hw0 & Hage & _)|(-> & Ht0)].
  - left. repeat split; [exact R | congruence | exact Hage].
  - right. split; [reflexivity|]. apply in_or_app. left. rewrite Ht0.
    do 4 right. left. reflexivity.
Qed.

Lemma written_outputs_agree_with_cache_witness :
  run no_flags (env_one_match 0) empty_world
  = (fst (run no_flags (env_one_match 0) empty_world), Finished) /\
  exists ts matched root,
    matched <> [] /\
    cache_file (world (fst (run no_flags (env_one_match 0) empty_world)))
    = Some (CacheJson ts matched (XmlOf root)) /\
    channels_file (world (fst (run no_flags (env_one_match 0) empty_world)))
    = Some root /\
    playlist_file (world (fst (run no_flags (env_one_match 0) empty_world)))
    = Some (playlist_text matched) /\
    In ChannelsWritten
       (trace (fst (run no_flags (env_one_match 0) empty_world))) /\
    In PlaylistWritten
       (trace (fst (run no_flags (env_one_match 0) empty_world))) /\
    ((refresh no_flags = false /\
      cache_file empty_world
      = cache_file (world (fst (run no_flags (env_one_match 0) empty_world))) /\
      (clock_load (env_one_match 0) - ts <= CACHE_MAX_AGE)%Q)
     \/ (ts = clock_save (env_one_match 0) /\
         In CacheSaved
            (trace (fst (run no_flags (env_one_match 0) empty_world))))).
Proof.
  assert (E : run no_flags (env_one_match 0) empty_world
              = (fst (run no_flags (env_one_match 0) empty_world), Finished))
    by reflexivity.
  split; [exact E|].
  apply (written_outputs_agree_with_cache no_flags (env_one_match 0)
           empty_world _ Finished E).
  left. reflexivity.
Defined.

Lemma prelude_cached args env w ts matched root :
  refresh args = false -> git_ok env = true -> npm_ok env = true ->
  cache_file w = Some (CacheJson ts matched (XmlOf root)) ->
  (clock_load env - ts <= CACHE_MAX_AGE)%Q ->
  (setup env ;; obtain_matches args env) (start w)
  = ({| world := w; trace := [repository_event env; NpmInstall] |},
     inl (matched, root, Z.of_nat (length matched))).
Proof.
  intros R G N Hc Hage. unfold bind. rewrite setup_run, G, N. cbv zeta iota.
  cbn [start world trace app].
  pose proof (load_fresh (clock_load env) ts matched root Hage) as L.
  rewrite <- Hc in L.
  match goal with
  | |- obtain_matches _ _ ?s = _ =>
      rewrite (obtain_cached args env s
                 {| cached_channels := matched; cached_root := root |} R L)
  end.
  reflexivity.
Qed.

Lemma prelude_fresh args env w m3u :
  refresh args = true
  \/ load_channel_cache (clock_load env) (cache_file w) = Return None ->
  git_ok env = true -> npm_ok env = true ->
  download env = Return m3u ->
  exists st,
    match_loop (path_ext env) (sites env) (parse_m3u m3u) match_init
    = Return st /\
    matched_channels st
    = filter (is_matched (path_ext env) (sites env)) (parse_m3u m3u) /\
    length (definitions st) = length (matched_channels st) /\
    (setup env ;; obtain_matches args env) (start w)
    = ({| world := save_channel_cache (clock_save env) (matched_channels st)
                     (new_channels_root (definitions st)) w;
          trace := [repository_event env; NpmInstall; Downloaded;
                    CatalogScanned; CacheSaved] |},
       inl (matched_channels st, new_channels_root (definitions st),
            Z.of_nat (length (matched_channels st)))).
Proof.
  intros F G N Hd.
  destruct (match_pass (path_ext env) (sites env) (parse_m3u m3u))
    as (st & E & A & B & C).
  exists st. split; [exact E|]. split; [exact A|]. split; [exact B|].
  unfold bind. rewrite setup_run, G, N. cbv zeta iota.
  cbn [start world trace app].
  rewrite obtain_fresh by exact F. rewrite Hd, E, C. reflexivity.
Qed.

(* ------------------------------------------------------------------ *)
(** *** Failures before the match *)

(** X9: the repository update and the dependency installation run first on
    every run, also when a fresh cache exists, and a failure of either
    ends the run with [CalledProcessError] before anything is read or
    written; so does a failing download on a run that does not use the
    cache.  No file has changed then. *)
Theorem failed_setup_or_download_stops_the_run
  (args : Args) (env : Env) (w : World) :
  (git_ok env = false ->
   run args env w
   = ({| world := w; trace := [repository_event env] |},
      Uncaught CalledProcessError)) /\
  (git_ok env = true -> npm_ok env = false ->
   run args env w
   = ({| world := w; trace := [repository_event env; NpmInstall] |},
      Uncaught CalledProcessError)) /\
  (forall e,
     git_ok env = true -> npm_ok env = true ->
     refresh args = true
     \/ load_channel_cache (clock_load env) (cache_file w) = Return None ->
     download env = Raise e ->
     run args env w
     = ({| world := w;
           trace := [repository_event env; NpmInstall; Downloaded] |},
        Uncaught e)).
Proof.
  split; [|split].
  - intros G. rewrite run_split. unfold bind. rewrite setup_run, G. reflexivity.
  - intros G N. rewrite run_split. unfold bind. rewrite setup_run, G, N.
    reflexivity.
  - intros e G N F Hd. rewrite run_split. unfold bind.
    rewrite setup_run, G, N. cbv zeta iota. cbn [start world trace app].
    rewrite obtain_fresh by exact F. rewrite Hd. reflexivity.
Qed.

(* ------------------------------------------------------------------ *)
(** *** The guide *)

(** X10: on a run that has written the playlist, the generator runs exactly
    when [--refresh-epg] is given or the guide artifact is absent or older
    than [GUIDE_CACHE_MAX_AGE].  When it does not run the run finishes and
    the guide is as it was.  When it runs and fails the run ends with
    [sys.exit(1)] and the guide is as it was.  When it succeeds the run
    finishes, and the guide is replaced exactly when [epg/guide.xml]
    exists afterwards, whether this run of the generator wrote that file
    or an earlier one left it; when it does not exist the run still
    finishes and the guide is as it was. *)
Theorem generator_runs_unless_guide_is_fresh
  (args : Args) (env : Env) (w : World) (s : RunState) (o : outcome) :
  run args env w = (s, o) ->
  In PlaylistWritten (trace s) ->
  (In GrabRun (trace s) <->
   refresh_epg args = true
   \/ is_guide_recent (clock_guide env) (guide_file w) = false) /\
  (~ In GrabRun (trace s) ->
   o = Finished /\ guide_file (world s) = guide_file w) /\
  (In GrabRun (trace s) ->
   (grab_ok env = false ->
    o = SysExit 1 /\ guide_file (world s) = guide_file w) /\
   (grab_ok env = true ->
    o = Finished /\
    guide_file (world s)
    = if guide_path_exists env then Some (clock_copy env) else guide_file w)).
Proof.
  intros H Hw.
  destruct (written_run _ _ _ _ _ H (or_intror Hw))
    as (s0 & matched & root & ts & _ & _ & _ & _ & _ & Hg & Src & P & Z0).
  destruct (past_guard _ _ _ _ _ _ _ _ Z0 P)
    as (_ & _ & _ & tail & Ht & Cases).
  rewrite Hg in Cases.
  assert (Iff : In GrabRun (trace s) <-> In GrabRun tail).
  { rewrite Ht, !in_app_iff. split; [|auto].
    intros [K|[K|K]]; [exfalso | exfalso | exact K].
    - destruct Src as [(_ & _ & _ & T0)|(_ & T0)]; rewrite T0 in K;
        event_cases env.
    - destruct K as [K|[K|[]]]; discriminate. }
  rewrite Iff.
  destruct Cases as [(-> & R & Fr & -> & Gf)
                    | (Gen & [(G & -> & -> & Gf)
                             |[(G & Mk & -> & -> & Gf)
                              |(G & Mk & -> & -> & Gf)]])].
  - split; [|split].
    + split; [intros []|]. intros [K|K]; congruence.
    + intros _. split; [reflexivity | exact Gf].
    + intros [].
  - split; [|split].
    + split; [intros _; exact Gen | intros _; left; reflexivity].
    + intros K. exfalso. apply K. left. reflexivity.
    + intros _. split; [intros _; split; [reflexivity | exact Gf]|].
      intros K. congruence.
  - split; [|split].
    + split; [intros _; exact Gen | intros _; left; reflexivity].
    + intros K. exfalso. apply K. left. reflexivity.
    + intros _. split; [intros K; congruence|].
      intros _. rewrite Mk. split; [reflexivity | exact Gf].
  - split; [|split].
    + split; [intros _; exact Gen | intros _; left; reflexivity].
    + intros K. exfalso. apply K. left. reflexivity.
    + intros _. split; [intros K; congruence|].
      intros _. rewrite Mk. split; [reflexivity | exact Gf].
Qed.

Lemma generator_runs_unless_guide_is_fresh_witness :
  run no_flags (env_one_match 0) empty_world
  = (fst (run no_flags (env_one_match 0) empty_world), Finished) /\
  In PlaylistWritten
     (trace (fst (run no_flags (env_one_match 0) empty_world))) /\
  In GrabRun (trace (fst (run no_flags (env_one_match 0) empty_world))) /\
  is_guide_recent (clock_guide (env_one_match 0)) (guide_file empty_world)
  = false /\
  guide_file (world (fst (run no_flags (env_one_match 0) empty_world)))
  = Some (clock_copy (env_one_match 0)).
Proof.
  assert (E : run no_flags (env_one_match 0) empty_world
              = (fst (run no_flags (env_one_match 0) empty_world), Finished))
    by reflexivity.
  assert (Hw : In PlaylistWritten
                 (trace (fst (run no_flags (env_one_match 0) empty_world))))
    by (vm_compute; tauto).
  assert (Hg : In GrabRun
                 (trace (fst (run no_flags (env_one_match 0) empty_world))))
    by (vm_compute; tauto).
  split; [exact E|]. split; [exact Hw|]. split; [exact Hg|].
  split; [reflexivity|].
  destruct (generator_runs_unless_guide_is_fresh no_flags (env_one_match 0)
              empty_world _ Finished E Hw) as (_ & _ & K).
  exact (proj2 (proj2 (K Hg) eq_refl)).
Defined.

(* ------------------------------------------------------------------ *)
(** *** Runs that use the cache, and runs that ignore it *)

(** X11: a run without [--refresh] that finds a record at most
    [CACHE_MAX_AGE] old takes the match result from it: it neither
    downloads the playlist nor scans the catalog nor saves the cache, the
    cache file stays as it is, and the two output files are written from
    the record; with an empty record the run stops at the guard and
    changes nothing. *)
Theorem cached_run_reuses_the_record
  (args : Args) (env : Env) (w : World)
  (ts : Q) (matched : list Channel) (root : element) :
  refresh args = false -> git_ok env = true -> npm_ok env = true ->
  cache_file w = Some (CacheJson ts matched (XmlOf root)) ->
  (clock_load env - ts <= CACHE_MAX_AGE)%Q ->
  exists s o,
    run args env w = (s, o) /\
    existsb rescan_event (trace s) = false /\
    ~ In CacheSaved (trace s) /\
    cache_file (world s) = cache_file w /\
    (matched = [] -> o = SysExit 1 /\ world s = w) /\
    (matched <> [] ->
     channels_file (world s) = Some root /\
     playlist_file (world s) = Some (playlist_text matched) /\
     In PlaylistWritten (trace s)).
Proof.
  intros R G N Hc Hage. rewrite run_split.
  rewrite (prelude_cached args env w ts matched root R G N Hc Hage).
  destruct matched as [|ch rest].
  - cbn [length Z.of_nat]. rewrite at_guard_zero.
    eexists. eexists. split; [reflexivity|]. cbn [world trace].
    split; [unfold repository_event; destruct (epg_cloned env); reflexivity|].
    split; [event_cases env|].
    split; [reflexivity|].
    split; [intros _; split; reflexivity | intros K; congruence].
  - destruct (match produce_outputs args env
                      (ch :: rest, root, Z.of_nat (length (ch :: rest)))
                      {| world := w;
                         trace := [repository_event env; NpmInstall] |} with
              | (s1, inl _) => (s1, Finished)
              | (s1, inr o1) => (s1, o1)
              end) as [s o] eqn:P.
    assert (Z0 : (Z.of_nat (length (ch :: rest)) =? 0)%Z = false)
      by reflexivity.
    destruct (past_guard _ _ _ _ _ _ _ _ Z0 P)
      as (C1 & C2 & C3 & tail & Ht & Cases).
    cbn [world trace] in *.
    exists s, o. split; [reflexivity|].
    assert (Tl : tail = [] \/ tail = [GrabRun]
                 \/ tail = [GrabRun; GuideCopied]).
    { destruct Cases as [(T & _)|(_ & [(_ & T & _)|[(_ & _ & T & _)
                                                    |(_ & _ & T & _)]])];
        auto. }
    split; [|split].
    + rewrite Ht.
      destruct Tl as [-> | [-> | ->]]; unfold repository_event;
        destruct (epg_cloned env); reflexivity.
    + rewrite Ht. destruct Tl as [-> | [-> | ->]]; event_cases env.
    + split; [exact C1|]. split; [intros K; discriminate|].
      intros _. split; [exact C2|]. split; [exact C3|].
      rewrite Ht. right. right. right. left. reflexivity.
Qed.

Lemma cached_run_reuses_the_record_witness :
  refresh no_flags = false /\
  git_ok (env_one_match 1000) = true /\
  npm_ok (env_one_match 1000) = true /\
  (clock_load (env_one_match 1000) - 0 <= CACHE_MAX_AGE)%Q /\
  exists s o,
    run no_flags (env_one_match 1000) (world_cached 0) = (s, o) /\
    existsb rescan_event (trace s) = false /\
    ~ In CacheSaved (trace s) /\
    cache_file (world s) = cache_file (world_cached 0) /\
    (firstn 1 three_channels = [] -> o = SysExit 1 /\ world s = world_cached 0) /\
    (firstn 1 three_channels <> [] ->
     channels_file (world s)
     = Some (new_channels_root [channel_def (lit "abc") (lit "en")]) /\
     playlist_file (world s)
     = Some (playlist_text (firstn 1 three_channels)) /\
     In PlaylistWritten (trace s)).
Proof.
  assert (Hage : (clock_load (env_one_match 1000) - 0 <= CACHE_MAX_AGE)%Q).
  { unfold CACHE_MAX_AGE. cbn. lra. }
  do 3 (split; [reflexivity|]). split; [exact Hage|].
  exact (cached_run_reuses_the_record no_flags (env_one_match 1000)
           (world_cached 0) 0 (firstn 1 three_channels)
           (new_channels_root [channel_def (lit "abc") (lit "en")])
           eq_refl eq_refl eq_refl eq_refl Hage).
Defined.



(** X13: with [--refresh] the cache file is never read: two runs that differ
    only in what the cache file held end the same way, with the same
    events and the same output and guide files; once the cache is saved
    the two worlds are equal. *)
Theorem refresh_ignores_the_cache
  (args : Args) (env : Env) (w1 w2 : World) :
  refresh args = true ->
  same_but_cache w1 w2 ->
  snd (run args env w1) = snd (run args env w2) /\
  trace (fst (run args env w1)) = trace (fst (run args env w2)) /\
  same_but_cache (world (fst (run args env w1)))
                 (world (fst (run args env w2))) /\
  (In CacheSaved (trace (fst (run args env w1))) ->
   world (fst (run args env w1)) = world (fst (run args env w2))).
Proof.
  intros R (S1 & S2 & S3).
  destruct w1 as [c1 x1 p1 g1], w2 as [c2 x2 p2 g2].
  cbn [channels_file playlist_file guide_file] in S1, S2, S3. subst x2 p2 g2.
  rewrite !run_split. unfold bind. rewrite !setup_run. cbv zeta.
  cbn [start world trace app].
  destruct (git_ok env);
    [|cbn; repeat split; intros K; exfalso; event_cases env].
  destruct (npm_ok env);
    [|cbn; repeat split; intros K; exfalso; event_cases env].
  rewrite !obtain_fresh by (left; exact R). cbn [world trace app].
  destruct (download env) as [m3u|e];
    [|cbn; repeat split; intros K; exfalso; event_cases env].
  destruct (match_loop (path_ext env) (sites env) (parse_m3u m3u) match_init)
    as [st|e];
    [|cbn; repeat split; intros K; exfalso; event_cases env].
  rewrite !produce_run. cbn [world trace save_channel_cache guide_file].
  destruct (matched_count st =? 0)%Z; [cbn; repeat split|].
  cbv zeta.
  destruct (negb (refresh_epg args) && is_guide_recent (clock_guide env) g1);
    [cbn; repeat split|].
  destruct (grab_ok env); [|cbn; repeat split].
  destruct (guide_path_exists env); cbn; repeat split.
Qed.

Lemma refresh_ignores_the_cache_witness :
  refresh refresh_only = true /\
  same_but_cache empty_world (world_cached 0) /\
  snd (run refresh_only (env_one_match 1000) empty_world)
  = snd (run refresh_only (env_one_match 1000) (world_cached 0)) /\
  world (fst (run refresh_only (env_one_match 1000) empty_world))
  = world (fst (run refresh_only (env_one_match 1000) (world_cached 0))).
Proof.
  assert (S : same_but_cache empty_world (world_cached 0))
    by (repeat split).
  split; [reflexivity|]. split; [exact S|].
  destruct (refresh_ignores_the_cache refresh_only (env_one_match 1000)
              empty_world (world_cached 0) eq_refl S) as (A & _ & _ & D).
  split; [exact A|]. apply D. vm_compute. tauto.
Defined.

(* ------------------------------------------------------------------ *)
(** *** A fresh run from the playlist to the files *)

(** X14: a run that does not use the cache and whose download succeeds keeps
    the parsed entries whose identifier the scanner finds, in playlist
    order.  It saves them in the cache with as many definitions; when none
    is kept it stops at the guard and writes no output file; otherwise it
    writes the definitions and the kept entries, and the written playlist,
    when no kept URL line is a directive, parses back to exactly the kept
    entries. *)
Theorem fresh_run_filters_the_playlist
  (args : Args) (env : Env) (w : World) (m3u : str) :
  refresh args = true
  \/ load_channel_cache (clock_load env) (cache_file w) = Return None ->
  git_ok env = true -> npm_ok env = true ->
  download env = Return m3u ->
  exists s o defs,
    run args env w = (s, o) /\
    length defs
    = length (filter (is_matched (path_ext env) (sites env)) (parse_m3u m3u)) /\
    cache_file (world s)
    = Some (CacheJson (clock_save env)
              (filter (is_matched (path_ext env) (sites env)) (parse_m3u m3u))
              (XmlOf (new_channels_root defs))) /\
    (filter (is_matched (path_ext env) (sites env)) (parse_m3u m3u) = [] ->
     o = SysExit 1 /\
     channels_file (world s) = channels_file w /\
     playlist_file (world s) = playlist_file w) /\
    (filter (is_matched (path_ext env) (sites env)) (parse_m3u m3u) <> [] ->
     channels_file (world s) = Some (new_channels_root defs) /\
     playlist_file (world s)
     = Some (playlist_text
               (filter (is_matched (path_ext env) (sites env))
                  (parse_m3u m3u))) /\
     (Forall (fun ch => is_directive (stream_url ch) = false)
        (filter (is_matched (path_ext env) (sites env)) (parse_m3u m3u)) ->
      parse_m3u
        (playlist_text
           (filter (is_matched (path_ext env) (sites env)) (parse_m3u m3u)))
      = filter (is_matched (path_ext env) (sites env)) (parse_m3u m3u))).
Proof.
  intros F G N Hd.
  destruct (prelude_fresh args env w m3u F G N Hd) as (st & _ & A & B & E).
  rewrite run_split, E. rewrite <- A.
  destruct (matched_channels st) as [|ch rest] eqn:M.
  - cbn [length Z.of_nat]. rewrite at_guard_zero.
    eexists. eexists. exists (definitions st).
    split; [reflexivity|]. split; [exact B|].
    cbn [world save_channel_cache cache_file channels_file playlist_file].
    split; [reflexivity|].
    split; [intros _; repeat split | intros K; congruence].
  - rewrite <- M in *.
    destruct (match produce_outputs args env
                      (matched_channels st,
                       new_channels_root (definitions st),
                       Z.of_nat (length (matched_channels st)))
                      {| world := save_channel_cache (clock_save env)
                                    (matched_channels st)
                                    (new_channels_root (definitions st)) w;
                         trace := [repository_event env; NpmInstall;
                                   Downloaded; CatalogScanned; CacheSaved] |}
              with
              | (s1, inl _) => (s1, Finished)
              | (s1, inr o1) => (s1, o1)
              end) as [s o] eqn:P.
    assert (Z0 : (Z.of_nat (length (matched_channels st)) =? 0)%Z = false)
      by (rewrite M; reflexivity).
    destruct (past_guard _ _ _ _ _ _ _ _ Z0 P) as (C1 & C2 & C3 & _).
    cbn [world save_channel_cache cache_file] in C1.
    exists s, o, (definitions st).
    split; [reflexivity|]. split; [exact B|]. split; [exact C1|].
    split; [intros K; rewrite M in K; discriminate|].
    intros _. split; [exact C2|]. split; [exact C3|].
    intros Hdir.
    assert (Hwf : Forall well_formed_entry (matched_channels st)).
    { rewrite A. apply Forall_forall. intros c Hin.
      apply filter_In in Hin. destruct Hin as [Hin _].
      apply parse_lines_sound in Hin.
      apply (entry_at_well_formed (split_nl m3u));
        [apply split_nl_no_lf | exact Hin]. }
    unfold parse_m3u at 1. rewrite split_playlist_text by exact Hwf.
    destruct (written_playlist_valid _ Hwf Hdir) as [V C].
    rewrite parse_lines_playlist by exact V. exact C.
Qed.

Lemma fresh_run_filters_the_playlist_witness :
  (refresh no_flags = true
   \/ load_channel_cache (clock_load (env_one_match 0))
        (cache_file empty_world) = Return None) /\
  download (env_one_match 0) = Return playlist_padded /\
  filter (is_matched no_ext sample_catalog) (parse_m3u playlist_padded)
  = parse_m3u playlist_padded /\
  exists s o defs,
    run no_flags (env_one_match 0) empty_world = (s, o) /\
    length defs = 1 /\
    channels_file (world s) = Some (new_channels_root defs) /\
    playlist_file (world s)
    = Some (playlist_text (parse_m3u playlist_padded)) /\
    parse_m3u (playlist_text (parse_m3u playlist_padded))
    = parse_m3u playlist_padded.
Proof.
  assert (F : refresh no_flags = true
              \/ load_channel_cache (clock_load (env_one_match 0))
                   (cache_file empty_world) = Return None)
    by (right; reflexivity).
  assert (K : filter (is_matched no_ext sample_catalog)
                (parse_m3u playlist_padded) = parse_m3u playlist_padded)
    by reflexivity.
  split; [exact F|]. split; [reflexivity|]. split; [exact K|].
  destruct (fresh_run_filters_the_playlist no_flags (env_one_match 0)
              empty_world playlist_padded F eq_refl eq_refl eq_refl)
    as (s & o & defs & Hrun & Hlen & _ & _ & Hout).
  change (path_ext (env_one_match 0)) with no_ext in Hlen, Hout.
  change (sites (env_one_match 0)) with sample_catalog in Hlen, Hout.
  rewrite K in Hlen, Hout.
  assert (Hne : parse_m3u playlist_padded <> []) by discriminate.
  destruct (Hout Hne) as (H1 & H2 & H3).
  exists s, o, defs.
  split; [exact Hrun|]. split; [exact Hlen|]. split; [exact H1|].
  split; [exact H2|].
  apply H3. constructor; [reflexivity | constructor].
Defined.
